(** * Harmony Navigator: the metrics engine of [app.py]

    A shallow embedding of the numerical core of [app.py]
    ([calculate_metrics], [calculate_ahp_weights], [calculate_rhi_metrics],
    [analyze_discrepancy]) and of the log masking of [EncryptionManager].

    Conventions of the embedding.
    - A Python/NumPy float is a real number; a cell of a data frame is an
      [option R], where [None] is NaN (a missing or non-numeric cell).
    - A float computation whose result is not finite (the [inf] of
      [scipy.special.rel_entr], a division by zero) is [None].
    - Bytes and Unicode code points are integers ([Z]) in their range; a
      Python [str] is the list of its code points, [bytes] the list of its
      bytes. *)

From Stdlib Require Import Reals Lra Lia ZArith List Bool Permutation Sorted.
Import ListNotations.

Open Scope R_scope.

(** ** A. Domain schema *)

Inductive domain : Set :=
| health | relationships | meaning | autonomy | finance | leisure | competition.

Definition DOMAINS : list domain :=
  [health; relationships; meaning; autonomy; finance; leisure; competition].

Definition domain_eq_dec (a b : domain) : {a = b} + {a <> b}.
Proof. decide equality. Defined.

(** ** B. Numeric helpers (NumPy / pandas primitives) *)

(** A data-frame cell: [None] is NaN. *)
Definition cell := option R.

(** [np.sum] over a vector. *)
Definition np_sum (v : list R) : R := fold_right Rplus 0 v.

(** [Series.fillna(0)] on one cell. *)
Definition fillna0 (c : cell) : R :=
  match c with Some x => x | None => 0 end.

(** The cells that are not NaN. *)
Fixpoint dropna (l : list cell) : list R :=
  match l with
  | [] => []
  | Some x :: t => x :: dropna t
  | None :: t => dropna t
  end.

(** [DataFrame.mean(axis=1, skipna=True)] on one row: the mean of the cells
    that are present, NaN when none is. *)
Definition mean_skipna (l : list cell) : cell :=
  match dropna l with
  | [] => None
  | xs => Some (np_sum xs / INR (length xs))
  end.

(** ** C. Core computation: [calculate_metrics] *)

(** One row of the frame handed to [calculate_metrics]: the [q_*] and [s_*]
    columns, the [s_element_*] columns of each domain that exist in the frame
    (the list is empty when the frame has none for that domain), and
    [g_happiness]. *)
Record row : Type := {
  q_col : domain -> cell;
  s_col : domain -> cell;
  s_elements : domain -> list cell;
  g_happiness : cell
}.

(** The loop over [LONG_ELEMENTS]: when element columns exist for the domain
    the [s_] column is replaced by their row mean. *)
Definition domain_score (r : row) (d : domain) : cell :=
  match s_elements r d with
  | [] => s_col r d
  | es => mean_skipna es
  end.

(** The [fillna(0)] loop over [Q_COLS + S_COLS]. *)
Definition q_filled (r : row) (d : domain) : R := fillna0 (q_col r d).
Definition s_filled (r : row) (d : domain) : R := fillna0 (domain_score r d).

Definition q_vector (r : row) : list R := map (q_filled r) DOMAINS.
Definition s_vector (r : row) : list R := map (s_filled r) DOMAINS.

(** [np.nansum(q_vectors * s_vectors_normalized, axis=1)]: after [fillna(0)]
    no product is NaN, so the NaN-skipping sum is the plain sum. *)
Definition satisfaction (r : row) : R :=
  np_sum (map (fun qs => fst qs * (snd qs / 100))
              (combine (q_vector r) (s_vector r))).

(** [scipy.special.rel_entr]: [x log(x/y)] for positive arguments, [0] at
    [x = 0] with [y >= 0], and [inf] (here [None]) elsewhere. *)
Definition rel_entr (x y : R) : option R :=
  if Rlt_dec 0 x then
    if Rlt_dec 0 y then Some (x * ln (x / y)) else None
  else if Req_dec_T x 0 then
    if Rle_dec 0 y then Some 0 else None
  else None.

(** The sum of a vector with possibly infinite entries. *)
Fixpoint sum_ext (l : list (option R)) : option R :=
  match l with
  | [] => Some 0
  | Some x :: t => match sum_ext t with Some s => Some (x + s) | None => None end
  | None :: _ => None
  end.

(** [v / total], element-wise; not finite when [total] is zero. *)
Definition normalize (v : list R) (total : R) : option (list R) :=
  if Req_dec_T total 0 then None else Some (map (fun x => x / total) v).

(** [scipy.spatial.distance.jensenshannon(p, q)] with the natural logarithm:
    both arguments are normalised, [m] is their midpoint, and the distance is
    the square root of half the sum of the two relative entropies to [m]. *)
Definition jensenshannon (p q : list R) : option R :=
  match normalize p (np_sum p), normalize q (np_sum q) with
  | Some p', Some q' =>
      let m := map (fun pq => (fst pq + snd pq) / 2) (combine p' q') in
      let left := map (fun xm => rel_entr (fst xm) (snd xm)) (combine p' m) in
      let right := map (fun xm => rel_entr (fst xm) (snd xm)) (combine q' m) in
      match sum_ext left, sum_ext right with
      | Some l, Some r => Some (sqrt ((l + r) / 2))
      | _, _ => None
      end
  | _, _ => None
  end.

(** The nested [calculate_unity(row)]. *)
Definition calculate_unity (r : row) : option R :=
  let q_vec := q_vector r in
  let s_vec_raw := s_vector r in
  let q_sum := np_sum q_vec in
  if Req_dec_T q_sum 0 then Some 0 else
  let q_vec_norm := map (fun x => x / q_sum) q_vec in
  let s_sum := np_sum s_vec_raw in
  if Req_dec_T s_sum 0 then Some 0 else
  let s_tilde := map (fun x => x / s_sum) s_vec_raw in
  match jensenshannon q_vec_norm s_tilde with
  | Some jsd_sqrt => let jsd := jsd_sqrt * jsd_sqrt in Some (1 - jsd)
  | None => None
  end.

(** The three columns [calculate_metrics] adds to a row. *)
Record scored : Type := {
  S_ : R;
  U_ : option R;
  H_ : option R
}.

Definition score_row (alpha : R) (r : row) : scored :=
  let S := satisfaction r in
  let U := calculate_unity r in
  {| S_ := S;
     U_ := U;
     H_ := match U with
           | Some u => Some (alpha * S + (1 - alpha) * u)
           | None => None
           end |}.

(** [calculate_metrics(df, alpha)]: every row is scored on its own; the empty
    frame is returned as it is. *)
Definition calculate_metrics (df : list row) (alpha : R) : list (row * scored) :=
  map (fun r => (r, score_row alpha r)) df.

Definition default_alpha : R := 6 / 10.

(** ** D. The weight solver: [calculate_ahp_weights] *)

Definition matrix := list (list R).

(** [np.ones((n, n))]. *)
Definition np_ones (n : nat) : matrix := repeat (repeat 1 n) n.

(** [l[i] = v] for an index in range. *)
Fixpoint set_nth {A : Type} (l : list A) (i : nat) (v : A) : list A :=
  match l, i with
  | [], _ => []
  | _ :: t, O => v :: t
  | x :: t, S k => x :: set_nth t k v
  end.

(** [matrix[i, j] = v]. *)
Definition mat_set (m : matrix) (i j : nat) (v : R) : matrix :=
  match nth_error m i with
  | Some line => set_nth m i (set_nth line j v)
  | None => m
  end.

(** [item_map = {item: i for i, item in enumerate(items)}], read at [x]:
    the last position of [x], or [None] for a [KeyError]. *)
Fixpoint index_from (items : list domain) (x : domain) (i : nat) : option nat :=
  match items with
  | [] => None
  | y :: t =>
      match index_from t x (S i) with
      | Some k => Some k
      | None => if domain_eq_dec y x then Some i else None
      end
  end.

Definition item_map (items : list domain) (x : domain) : option nat :=
  index_from items x 0.

(** One judgment: the pair that was asked and the domain that won. *)
Definition judgment : Set := (domain * domain) * domain.

(** The body of the loop over [comparisons.items()]. *)
Definition apply_judgment (items : list domain) (m : matrix) (c : judgment)
  : option matrix :=
  let '((item1, item2), winner) := c in
  match item_map items item1, item_map items item2 with
  | Some i, Some j =>
      if domain_eq_dec winner item1 then
        Some (mat_set (mat_set m i j 3) j i (1 / 3))
      else if domain_eq_dec winner item2 then
        Some (mat_set (mat_set m i j (1 / 3)) j i 3)
      else Some m
  | _, _ => None
  end.

Fixpoint build_matrix_from (items : list domain) (m : matrix)
  (comparisons : list judgment) : option matrix :=
  match comparisons with
  | [] => Some m
  | c :: rest =>
      match apply_judgment items m c with
      | Some m' => build_matrix_from items m' rest
      | None => None
      end
  end.

(** The comparison matrix: all ones, then one pass over the judgments in
    their insertion order. *)
Definition build_matrix (comparisons : list judgment) (items : list domain)
  : option matrix :=
  build_matrix_from items (np_ones (length items)) comparisons.

(** [np.clip(w, 0, None)] on one component. *)
Definition clip0 (x : R) : R := if Rlt_dec x 0 then 0 else x.

Definition floorZ (x : R) : Z := (up x - 1)%Z.

(** [np.round]: to the nearest integer, halves to the even neighbour. *)
Definition np_round (x : R) : Z :=
  let f := floorZ x in
  let r := x - IZR f in
  if Rlt_dec r (1 / 2) then f
  else if Rlt_dec (1 / 2) r then (f + 1)%Z
  else if Z.even f then f else (f + 1)%Z.

Definition sumZ (l : list Z) : Z := fold_right Z.add 0%Z l.

(** [np.argmax]: the first position of the maximum; [None] on the empty
    vector, where NumPy raises. *)
Fixpoint argmax_from (l : list Z) (i best_i : nat) (best : Z) : nat :=
  match l with
  | [] => best_i
  | x :: t =>
      if (best <? x)%Z then argmax_from t (S i) i x
      else argmax_from t (S i) best_i best
  end.

Definition np_argmax (l : list Z) : option nat :=
  match l with
  | [] => None
  | x :: t => Some (argmax_from t 1 0 x)
  end.

(** [v[i] += d]. *)
Fixpoint add_at (l : list Z) (i : nat) (d : Z) : list Z :=
  match l, i with
  | [], _ => []
  | x :: t, O => (x + d)%Z :: t
  | x :: t, S k => x :: add_at t k d
  end.

(** Everything after the eigen-decomposition: normalise, clip, fall back to
    the uniform vector, scale and round, patch the largest component. *)
Definition ahp_int_weights (principal_eigenvector : list R) : option (list Z) :=
  match normalize principal_eigenvector (np_sum principal_eigenvector) with
  | None => None
  | Some w =>
      let weights := map clip0 w in
      let weights :=
        if Req_dec_T (np_sum weights) 0
        then map (fun _ => 1 / INR (length weights)) weights
        else weights in
      let int_weights := map (fun x => np_round (x * 100)) weights in
      let diff := (100 - sumZ int_weights)%Z in
      if (diff =? 0)%Z then Some int_weights
      else
        match np_argmax int_weights with
        | Some k => Some (add_at int_weights k diff)
        | None => None
        end
  end.

(** [calculate_ahp_weights(comparisons, items)]. The eigen-decomposition is
    NumPy's: [eig m] stands for the real part of the column of
    [np.linalg.eig(m)] at the eigenvalue of largest real part. [None] is a
    raised exception or a result that is not finite. *)
Definition calculate_ahp_weights (eig : matrix -> list R)
  (comparisons : list judgment) (items : list domain) : option (list Z) :=
  match build_matrix comparisons items with
  | Some m => ahp_int_weights (eig m)
  | None => None
  end.

(** What the eigen-decomposition is expected to return, for real spectra. *)
Definition dot (u v : list R) : R :=
  np_sum (map (fun xy => fst xy * snd xy) (combine u v)).

Definition mat_vec (m : matrix) (v : list R) : list R :=
  map (fun line => dot line v) m.

Definition eigenpair (m : matrix) (lam : R) (v : list R) : Prop :=
  length v = length m /\
  (exists x, In x v /\ x <> 0) /\
  mat_vec m v = map (Rmult lam) v.

Definition principal_eigenvector (m : matrix) (v : list R) : Prop :=
  exists lam, eigenpair m lam v /\
              forall lam' v', eigenpair m lam' v' -> lam' <= lam.

(** The vector of ones: on [np_ones n] it is a principal eigenvector (for the
    eigenvalue [n]), which is what the eigen-decomposition finds, up to a
    factor, when no judgment was made. *)
Definition ones_eigenvector (m : matrix) : list R := repeat 1 (length m).

(** [matrix[i, j]]. *)
Definition mat_get (m : matrix) (i j : nat) : R := nth j (nth i m []) 0.

(** The entry of the comparison matrix for the ordered pair [(a, b)] of
    [items]. *)
Definition entry (items : list domain) (m : matrix) (a b : domain) : option R :=
  match item_map items a, item_map items b with
  | Some i, Some j => Some (mat_get m i j)
  | _, _ => None
  end.

(** The pair [{a, b}] was not judged: no key of [comparisons] is [(a, b)] or
    [(b, a)]. *)
Definition unjudged (comparisons : list judgment) (a b : domain) : Prop :=
  forall c, In c comparisons -> fst c <> (a, b) /\ fst c <> (b, a).

(** ** E. The risk aggregator: [calculate_rhi_metrics] *)

Record rhi_result : Type := {
  mean_H : R;
  std_H : R;
  frac_below : R;
  RHI : R
}.

(** [Series.mean()]. *)
Definition series_mean (h : list R) : R := np_sum h / INR (length h).

(** [Series.std(ddof=0)]. *)
Definition series_std0 (h : list R) : R :=
  let m := series_mean h in
  sqrt (np_sum (map (fun x => (x - m) * (x - m)) h) / INR (length h - 0)).

(** [(Series < tau)] as a 0/1 vector. *)
Definition below (tau : R) (h : list R) : list R :=
  map (fun x => if Rlt_dec x tau then 1 else 0) h.

(** [calculate_rhi_metrics]: [df_period] is the [H] column of the window. *)
Definition calculate_rhi_metrics (df_period : list R)
  (lambda_rhi gamma_rhi tau_rhi : R) : rhi_result :=
  match df_period with
  | [] => {| mean_H := 0; std_H := 0; frac_below := 0; RHI := 0 |}
  | _ =>
      let mean := series_mean df_period in
      let std := series_std0 df_period in
      let frac := series_mean (below tau_rhi df_period) in
      let rhi := mean - (lambda_rhi * std) - (gamma_rhi * frac) in
      {| mean_H := mean; std_H := std; frac_below := frac; RHI := rhi |}
  end.

(** The number of records of the window strictly below [tau]. *)
Definition count_below (tau : R) (h : list R) : nat :=
  length (filter (fun x => if Rlt_dec x tau then true else false) h).

(** ** F. The discrepancy analyzer: [analyze_discrepancy] *)

(** Which of the three messages is shown. *)
Inductive insight : Set :=
| positive_surprise        (* st.info *)
| hidden_dissatisfaction   (* st.warning *)
| aligned.                 (* st.success *)

(** [latest_g - latest_h] for the cells [H] and [g_happiness] of the latest
    record; a NaN cell counts as 0. *)
Definition discrepancy_gap (h g : cell) : R :=
  let latest_h := match h with Some x => x * 100 | None => 0 end in
  let latest_g := match g with Some x => x | None => 0 end in
  latest_g - latest_h.

Definition classify_gap (gap : R) (threshold : Z) : insight :=
  if Rlt_dec (IZR threshold) gap then positive_surprise
  else if Rlt_dec gap (- IZR threshold) then hidden_dissatisfaction
  else aligned.

(** [analyze_discrepancy(df_processed, threshold)]: the frame is given by its
    [H] and [g_happiness] columns; nothing is shown for the empty frame. *)
Definition analyze_discrepancy (df_processed : list (cell * cell))
  (threshold : Z) : option insight :=
  match df_processed with
  | [] => None
  | _ =>
      let latest_record := last df_processed (None, None) in
      Some (classify_gap
              (discrepancy_gap (fst latest_record) (snd latest_record))
              threshold)
  end.


(** ** G. The masking engine: [EncryptionManager] *)

Section Masking.
Local Open Scope Z_scope.

(** A Python [bytes] object and a Python [str] (its code points). *)
Definition bytes := list Z.
Definition str := list Z.

Definition is_byte (b : Z) : Prop := 0 <= b < 256.

(** An ASCII character, as a code point or as a byte. *)
Definition is_ascii (c : Z) : Prop := 0 <= c < 128.

(** A Unicode scalar value: a code point that is not a surrogate. *)
Definition is_scalar (c : Z) : Prop :=
  (0 <= c < 55296) \/ (57344 <= c < 1114112).

(** [str.encode('utf-8')] on one code point; [None] is [UnicodeEncodeError]
    (a lone surrogate). *)
Definition utf8_encode_cp (c : Z) : option bytes :=
  if c <? 0 then None
  else if c <? 128 then Some [c]
  else if c <? 2048 then Some [192 + c / 64; 128 + c mod 64]
  else if c <? 65536 then
    if (55296 <=? c) && (c <? 57344) then None
    else Some [224 + c / 4096; 128 + (c / 64) mod 64; 128 + c mod 64]
  else if c <? 1114112 then
    Some [240 + c / 262144; 128 + (c / 4096) mod 64;
          128 + (c / 64) mod 64; 128 + c mod 64]
  else None.

Fixpoint utf8_encode (s : str) : option bytes :=
  match s with
  | [] => Some []
  | c :: t =>
      match utf8_encode_cp c, utf8_encode t with
      | Some bs, Some rest => Some (bs ++ rest)
      | _, _ => None
      end
  end.

(** A continuation byte [10xxxxxx]. *)
Definition is_cont (b : Z) : bool := (128 <=? b) && (b <? 192).

(** [bytes.decode('utf-8')], strict: [None] is [UnicodeDecodeError]
    (a stray or missing continuation byte, an overlong form, a surrogate, a
    value above U+10FFFF). *)
Fixpoint utf8_decode (bs : bytes) : option str :=
  match bs with
  | [] => Some []
  | b0 :: t0 =>
      if (0 <=? b0) && (b0 <? 128) then
        option_map (cons b0) (utf8_decode t0)
      else if (194 <=? b0) && (b0 <? 224) then
        match t0 with
        | b1 :: t1 =>
            if is_cont b1
            then option_map (cons ((b0 - 192) * 64 + (b1 - 128)))
                            (utf8_decode t1)
            else None
        | _ => None
        end
      else if (224 <=? b0) && (b0 <? 240) then
        match t0 with
        | b1 :: b2 :: t2 =>
            let c := (b0 - 224) * 4096 + (b1 - 128) * 64 + (b2 - 128) in
            if is_cont b1 && is_cont b2 && (2048 <=? c)
               && negb ((55296 <=? c) && (c <? 57344))
            then option_map (cons c) (utf8_decode t2)
            else None
        | _ => None
        end
      else if (240 <=? b0) && (b0 <? 245) then
        match t0 with
        | b1 :: b2 :: b3 :: t3 =>
            let c := (b0 - 240) * 262144 + (b1 - 128) * 4096
                     + (b2 - 128) * 64 + (b3 - 128) in
            if is_cont b1 && is_cont b2 && is_cont b3
               && (65536 <=? c) && (c <? 1114112)
            then option_map (cons c) (utf8_decode t3)
            else None
        | _ => None
        end
      else None
  end.

(** The base64 alphabet: the character of a 6-bit value, and back. *)
Definition b64_char (i : Z) : Z :=
  if i <? 26 then 65 + i
  else if i <? 52 then 97 + (i - 26)
  else if i <? 62 then 48 + (i - 52)
  else if i =? 62 then 43
  else 47.

Definition b64_index (c : Z) : option Z :=
  if (65 <=? c) && (c <=? 90) then Some (c - 65)
  else if (97 <=? c) && (c <=? 122) then Some (c - 71)
  else if (48 <=? c) && (c <=? 57) then Some (c + 4)
  else if c =? 43 then Some 62
  else if c =? 47 then Some 63
  else None.

(** The padding character [=]. *)
Definition b64_pad : Z := 61.

(** [base64.b64encode]: three bytes to four characters, the last group
    padded with [=]. *)
Fixpoint b64encode (bs : bytes) : bytes :=
  match bs with
  | [] => []
  | [a] =>
      [b64_char (a / 4); b64_char ((a mod 4) * 16); b64_pad; b64_pad]
  | [a; b] =>
      [b64_char (a / 4); b64_char ((a mod 4) * 16 + b / 16);
       b64_char ((b mod 16) * 4); b64_pad]
  | a :: b :: c :: rest =>
      b64_char (a / 4) :: b64_char ((a mod 4) * 16 + b / 16)
      :: b64_char ((b mod 16) * 4 + c / 64) :: b64_char (c mod 64)
      :: b64encode rest
  end.

(** [binascii.a2b_base64] as [base64.b64decode] calls it (not strict):
    characters outside the alphabet are skipped, a completed padding ends the
    input, and [None] is [binascii.Error] (a dangling group). The state is
    the position in the current group of four, the bits left over from the
    previous character and the number of padding characters seen. *)
Fixpoint a2b_base64 (cs : bytes) (quad_pos : nat) (leftchar : Z) (pads : nat)
  : option bytes :=
  match cs with
  | [] => match quad_pos with O => Some [] | _ => None end
  | c :: rest =>
      if c =? b64_pad then
        if (2 <=? quad_pos)%nat then
          if (4 <=? quad_pos + S pads)%nat then Some []
          else a2b_base64 rest quad_pos leftchar (S pads)
        else a2b_base64 rest quad_pos leftchar pads
      else
        match b64_index c with
        | None => a2b_base64 rest quad_pos leftchar pads
        | Some v =>
            match quad_pos with
            | 0%nat => a2b_base64 rest 1 v 0
            | 1%nat =>
                option_map (cons (leftchar * 4 + v / 16))
                           (a2b_base64 rest 2 (v mod 16) 0)
            | 2%nat =>
                option_map (cons (leftchar * 16 + v / 4))
                           (a2b_base64 rest 3 (v mod 4) 0)
            | _ =>
                option_map (cons (leftchar * 64 + v))
                           (a2b_base64 rest 0 0 0)
            end
        end
  end.

Definition b64decode (cs : bytes) : option bytes := a2b_base64 cs 0 0 0.

(** [bytes([b ^ key[i % len(key)] for i, b in enumerate(data)])], counting
    from [i]. *)
Fixpoint xor_from (key : bytes) (i : nat) (data : bytes) : bytes :=
  match data with
  | [] => []
  | b :: t =>
      Z.lxor b (nth (i mod length key) key 0) :: xor_from key (S i) t
  end.

Definition xor_stream (key data : bytes) : bytes := xor_from key 0 data.

(** The object built by [EncryptionManager(password)]. *)
Record EncryptionManager : Type := {
  password_bytes : bytes;
  key : bytes
}.

(** [__init__]; [sha256] is [hashlib.sha256(...).digest()]. [None] when the
    password cannot be encoded. *)
Definition EncryptionManager_init (sha256 : bytes -> bytes) (password : str)
  : option EncryptionManager :=
  match utf8_encode password with
  | Some pb => Some {| password_bytes := pb; key := sha256 pb |}
  | None => None
  end.


(** [encrypt_log]; [None] is a raised exception. *)
Definition encrypt_log (self : EncryptionManager) (log_text : str)
  : option str :=
  match log_text with
  | [] => Some []
  | _ =>
      match utf8_encode log_text with
      | Some plain =>
          let encrypted_bytes := xor_stream (key self) plain in
          utf8_decode (b64encode encrypted_bytes)
      | None => None
      end
  end.

(** The text returned when decoding fails. *)
Definition decrypt_failure : str :=
  [91; 24489; 21495; 12395; 22833; 25943; 12375; 12414; 12375; 12383; 65306;
   12497; 12473; 12527; 12540; 12489; 12364; 36949; 12358; 12363; 12289;
   12487; 12540; 12479; 12364; 30772; 25613; 12375; 12390; 12356; 12427;
   21487; 33021; 24615; 12364; 12354; 12426; 12414; 12377; 93].

(** [decrypt_log]: every exception of the body is caught; on a [str]
    argument [pd.isna] is false, so only the empty text takes the first
    branch. *)
Definition decrypt_log (self : EncryptionManager) (encrypted_log : str) : str :=
  match encrypted_log with
  | [] => []
  | _ =>
      match utf8_encode encrypted_log with
      | Some raw =>
          match b64decode raw with
          | Some encrypted_bytes =>
              let decrypted_bytes := xor_stream (key self) encrypted_bytes in
              match utf8_decode decrypted_bytes with
              | Some text => text
              | None => decrypt_failure
              end
          | None => decrypt_failure
          end
      | None => decrypt_failure
      end
  end.

(** The SHA-256 digest of the password [password], and the manager built
    from it. *)
Definition sample_password : str := [112; 97; 115; 115; 119; 111; 114; 100].

Definition sample_digest : bytes :=
  [94; 136; 72; 152; 218; 40; 4; 113; 81; 208; 229; 111; 141; 198; 41; 39;
   115; 96; 61; 13; 106; 171; 189; 214; 42; 17; 239; 114; 29; 21; 66; 216].

Definition sample_manager : EncryptionManager :=
  {| password_bytes := sample_password; key := sample_digest |}.

(** A text with characters of one, two, three and four bytes. *)
Definition sample_text : str := [26085; 35352; 32; 111; 107; 128512; 233].

End Masking.

(** ** H. Sample records *)

(** The example of the specification: half of the weight on [health] with a
    full score, half on [relationships] with a zero score, the rest absent. *)
Definition example_row : row :=
  {| q_col := fun d => match d with
                       | health | relationships => Some (1 / 2)
                       | _ => Some 0
                       end;
     s_col := fun d => match d with
                       | health => Some 100
                       | relationships => Some 0
                       | _ => None
                       end;
     s_elements := fun _ => [];
     g_happiness := Some 50 |}.

(** A record whose whole weight is on [health], scored 50 there. *)
Definition half_row : row :=
  {| q_col := fun d => match d with health => Some 1 | _ => Some 0 end;
     s_col := fun d => match d with health => Some 50 | _ => Some 0 end;
     s_elements := fun _ => [];
     g_happiness := Some 50 |}.

(** A record with no weight declared at all. *)
Definition blank_row : row :=
  {| q_col := fun _ => None;
     s_col := fun d => match d with health => Some 80 | _ => None end;
     s_elements := fun _ => [];
     g_happiness := None |}.

(** A row that is not a record: one weight and one score are negative. *)
Definition signed_row : row :=
  {| q_col := fun d => match d with
                       | health => Some 2
                       | relationships => Some (-1)
                       | _ => Some 0
                       end;
     s_col := fun d => match d with
                       | health => Some 2
                       | relationships => Some (-1)
                       | _ => Some 0
                       end;
     s_elements := fun _ => [];
     g_happiness := None |}.


(** [half_row] with a better score on [health]. *)
Definition raised_row : row :=
  {| q_col := fun d => match d with health => Some 1 | _ => Some 0 end;
     s_col := fun d => match d with health => Some 80 | _ => Some 0 end;
     s_elements := fun _ => [];
     g_happiness := Some 50 |}.

(** A well-formed comparison matrix of order [n]: square, every entry 1, 3
    or 1/3, and reciprocal off the diagonal. *)
Definition comparison_matrix (n : nat) (m : matrix) : Prop :=
  length m = n
  /\ Forall (fun line => length line = n) m
  /\ (forall i j, (i < n)%nat -> (j < n)%nat ->
        mat_get m i j = 1 \/ mat_get m i j = 3 \/ mat_get m i j = 1 / 3)
  /\ (forall i j, (i < n)%nat -> (j < n)%nat -> i <> j ->
        mat_get m i j * mat_get m j i = 1).

(** ** I. The research tool: [contribute_research.py] *)

Section Research.
Local Open Scope Z_scope.

(** The text returned by the research tool when decoding fails. *)
Definition research_failure : str :=
  [91; 24489; 21495; 12456; 12521; 12540; 93].

(** [EncryptionManager.decrypt_log] of [contribute_research.py]: the same
    steps as in [app.py], with its own failure text. *)
Definition research_decrypt_log (self : EncryptionManager)
  (encrypted_log : str) : str :=
  match encrypted_log with
  | [] => []
  | _ =>
      match utf8_encode encrypted_log with
      | Some raw =>
          match b64decode raw with
          | Some encrypted_bytes =>
              let decrypted_bytes := xor_stream (key self) encrypted_bytes in
              match utf8_decode decrypted_bytes with
              | Some text => text
              | None => research_failure
              end
          | None => research_failure
          end
      | None => research_failure
      end
  end.

(** The UTF-8 encoding of [sample_text]. *)
Definition sample_plain : bytes :=
  [230; 151; 165; 232; 168; 152; 32; 111; 107; 240; 159; 152; 128; 195; 169].

(** A character of a base64 text: of the alphabet, or the padding. *)
Definition is_b64_text (c : Z) : Prop := c = b64_pad \/ b64_index c <> None.

End Research.

(** ** J. The record store kept by [main] *)

Section Store.
Local Open Scope Z_scope.

(** One row of the data sheet: who, which day (as a day number), how it was
    entered, the numeric columns and the masked log. *)
Record log_record : Type := {
  rec_username : str;
  rec_date : Z;
  rec_mode_quick : bool;
  rec_consent : bool;
  rec_row : row;
  rec_event_log : str
}.

(** [==] on two [str] values. *)
Definition str_eqb (a b : str) : bool :=
  if list_eq_dec Z.eq_dec a b then true else false.

(** [(df['username'] == username) & (df['date'] == target_date)] on one
    row. *)
Definition same_key (username : str) (target_date : Z) (r : log_record)
  : bool :=
  str_eqb (rec_username r) username && (rec_date r =? target_date).

(** The order of Python strings: by code point, a prefix first. *)
Fixpoint str_compare (a b : str) : comparison :=
  match a, b with
  | [], [] => Eq
  | [], _ :: _ => Lt
  | _ :: _, [] => Gt
  | x :: a', y :: b' =>
      match x ?= y with
      | Eq => str_compare a' b'
      | c => c
      end
  end.

(** The order used by [sort_values(by=['username', 'date'])]. *)
Definition record_leb (r1 r2 : log_record) : bool :=
  match str_compare (rec_username r1) (rec_username r2) with
  | Lt => true
  | Gt => false
  | Eq => rec_date r1 <=? rec_date r2
  end.

Definition record_le (r1 r2 : log_record) : Prop := record_leb r1 r2 = true.

Fixpoint insert_record (r : log_record) (l : list log_record)
  : list log_record :=
  match l with
  | [] => [r]
  | x :: t => if record_leb r x then r :: l else x :: insert_record r t
  end.

(** [df.sort_values(by=['username', 'date'])]; rows with the same key keep
    their order. *)
Definition sort_values (l : list log_record) : list log_record :=
  fold_right insert_record [] l.

(** The write of a submitted record: the row of the same user and day is
    dropped, the new row is appended, and the sheet is sorted again. *)
Definition save_record (all_data_df : list log_record) (new_record : log_record)
  : list log_record :=
  let kept :=
    filter (fun r => negb (same_key (rec_username new_record)
                                    (rec_date new_record) r))
           all_data_df in
  sort_values (kept ++ [new_record]).



(** The key of a row. *)
Definition record_key (r : log_record) : str * Z :=
  (rec_username r, rec_date r).

(** One row of the research sheet: a row of the data sheet without its log
    and with the two sentiment scores of the log. *)
Record research_record : Type := {
  res_username : str;
  res_date : Z;
  res_mode_quick : bool;
  res_consent : bool;
  res_row : row;
  sentiment_polarity : R;
  sentiment_subjectivity : R
}.

Definition research_key (r : research_record) : str * Z :=
  (res_username r, res_date r).

Definition key_eqb (k1 k2 : str * Z) : bool :=
  str_eqb (fst k1) (fst k2) && (snd k1 =? snd k2).

(** [drop_duplicates(subset=['date', 'username'], keep='last')]: a row is
    kept when no later row has its key. *)
Fixpoint drop_duplicates_last (l : list research_record)
  : list research_record :=
  match l with
  | [] => []
  | x :: t =>
      if existsb (fun y => key_eqb (research_key y) (research_key x)) t
      then drop_duplicates_last t
      else x :: drop_duplicates_last t
  end.

(** The update of the research sheet: the contributed rows are appended to
    the existing ones and duplicates are dropped. [None] for the existing
    sheet is a failed read, after which the contribution stands alone. *)
Definition contribute (existing_research_df : option (list research_record))
  (research_ready_df : list research_record) : list research_record :=
  let updated_research_df :=
    match existing_research_df with
    | Some existing => existing ++ research_ready_df
    | None => research_ready_df
    end in
  drop_duplicates_last updated_research_df.

End Store.

(** A row of the research sheet for a given user and day, with the numbers
    of [example_row] and a given polarity. *)
Definition sample_research (username : list Z) (day : Z) (polarity : R)
  : research_record :=
  {| res_username := username;
     res_date := day;
     res_mode_quick := true;
     res_consent := true;
     res_row := example_row;
     sentiment_polarity := polarity;
     sentiment_subjectivity := 0 |}.

(** A row of the data sheet for a given user and day, with the numbers of
    [example_row] and an empty log. *)
Definition sample_log (username : list Z) (day : Z) : log_record :=
  {| rec_username := username;
     rec_date := day;
     rec_mode_quick := true;
     rec_consent := false;
     rec_row := example_row;
     rec_event_log := [] |}.

(** ** K. Accounts: registration, login and deletion in [main] *)

Section Accounts.
Local Open Scope Z_scope.

(** One row of the users sheet. *)
Record user_record : Type := {
  usr_username : str;
  usr_password_hash : str
}.

(** The two entries of [st.session_state] that [main] manages. *)
Record session : Type := {
  ses_username : option str;
  ses_enc_manager : option EncryptionManager
}.

(** [EncryptionManager.hash_password]; [hashpw] is [bcrypt.hashpw] and
    [salt] the value drawn by [bcrypt.gensalt()]. [None] is a raised
    exception. *)
Definition hash_password (hashpw : bytes -> bytes -> bytes) (salt : bytes)
  (password : str) : option str :=
  match utf8_encode password with
  | Some password_bytes => utf8_decode (hashpw password_bytes salt)
  | None => None
  end.

(** [EncryptionManager.check_password]; [checkpw] is [bcrypt.checkpw], whose
    [ValueError] and [TypeError] ([None]) are caught and give [False]. *)
Definition check_password (checkpw : bytes -> bytes -> option bool)
  (password hashed_password : str) : option bool :=
  match utf8_encode password, utf8_encode hashed_password with
  | Some password_bytes, Some hashed_bytes =>
      match checkpw password_bytes hashed_bytes with
      | Some b => Some b
      | None => Some false
      end
  | _, _ => None
  end.

(** What bcrypt guarantees: a hash is ASCII text and verifies the password
    it was made from. *)
Definition bcrypt_ok (hashpw : bytes -> bytes -> bytes)
  (checkpw : bytes -> bytes -> option bool) : Prop :=
  forall password_bytes salt,
    Forall is_ascii (hashpw password_bytes salt)
    /\ checkpw password_bytes (hashpw password_bytes salt) = Some true.

(** [users_df[users_df['username'] == username]]. *)
Definition users_named (users_df : list user_record) (username : str)
  : list user_record :=
  filter (fun u => str_eqb (usr_username u) username) users_df.

(** The outcome of the registration form. *)
Inductive register_outcome : Type :=
| reg_name_taken
| reg_password_short
| reg_password_mismatch
| reg_done (updated_users_df : list user_record) (state : session).

(** The body of [if submitted:] in the registration form. *)
Definition register_submit (sha256 : bytes -> bytes)
  (hashpw : bytes -> bytes -> bytes) (salt : bytes)
  (users_df : list user_record)
  (new_username new_password new_password_confirm : str)
  : option register_outcome :=
  if existsb (fun u => str_eqb (usr_username u) new_username) users_df
  then Some reg_name_taken
  else if (length new_password <? 8)%nat then Some reg_password_short
  else if negb (str_eqb new_password new_password_confirm)
  then Some reg_password_mismatch
  else
    match hash_password hashpw salt new_password with
    | Some hashed_pw =>
        let new_user := {| usr_username := new_username;
                           usr_password_hash := hashed_pw |} in
        match EncryptionManager_init sha256 new_password with
        | Some manager =>
            Some (reg_done (users_df ++ [new_user])
                           {| ses_username := Some new_username;
                              ses_enc_manager := Some manager |})
        | None => None
        end
    | None => None
    end.

(** The outcome of the login form. *)
Inductive login_outcome : Type :=
| login_ok
| login_wrong
| login_no_users.

(** The body of [if submitted:] in the login form. *)
Definition login_submit (checkpw : bytes -> bytes -> option bool)
  (users_df : list user_record) (username_input password_input : str)
  : option login_outcome :=
  match users_df with
  | [] => Some login_no_users
  | _ =>
      match users_named users_df username_input with
      | [] => Some login_wrong
      | user_record :: _ =>
          match check_password checkpw password_input
                               (usr_password_hash user_record) with
          | Some true => Some login_ok
          | Some false => Some login_wrong
          | None => None
          end
      end
  end.


End Accounts.

(** Stand-ins for bcrypt in the examples: a hash that is ASCII text and a
    check that recomputes it. *)
Definition sample_hashpw (password_bytes salt : list Z) : list Z :=
  map (fun b => 48 + b mod 10)%Z password_bytes.

Definition sample_checkpw (password_bytes hashed_bytes : list Z) : option bool :=
  Some (str_eqb hashed_bytes (sample_hashpw password_bytes [])).

(** The user name [ann] and the users sheet after [ann] registered with the
    password [password]. *)
Definition sample_username : list Z := [97; 110; 110]%Z.

Definition sample_users : list user_record :=
  [{| usr_username := sample_username;
      usr_password_hash := sample_hashpw sample_password [] |}].

(** ** L. The daily form of [main] *)

(** The cells of the element columns of one domain (those of
    [LONG_ELEMENTS]) in the new row, as floats: a slider value where the
    form showed the element, NaN elsewhere. *)
Definition form_cells (cells : list (option Z)) : list cell :=
  map (option_map IZR) cells.

(** The row built when the daily form is submitted: the weights are the
    slider values divided by 100, each domain score is the rounded mean of
    the element scores that were entered (NaN when none was), and the
    element scores and the overall rating are stored as entered. *)
Definition form_row (q_values : domain -> Z)
  (s_element_values : domain -> list (option Z)) (g : Z) : row :=
  {| q_col := fun d => Some (IZR (q_values d) / 100);
     s_col := fun d =>
       match dropna (form_cells (s_element_values d)) with
       | [] => None
       | domain_scores =>
           Some (IZR (np_round (np_sum domain_scores
                                / INR (length domain_scores))))
       end;
     s_elements := fun d => form_cells (s_element_values d);
     g_happiness := Some (IZR g) |}.

(** [if submitted:]: nothing is saved unless the weights add up to 100. *)
Definition submit_form (q_values : domain -> Z)
  (s_element_values : domain -> list (option Z)) (g : Z) : option row :=
  if (sumZ (map q_values DOMAINS) =? 100)%Z
  then Some (form_row q_values s_element_values g)
  else None.


Definition sample_element_values (d : domain) : list (option Z) :=
  match d with health => [Some 70; None; Some 90] | _ => [None] end%Z.

(** The manager of another password, [letmein1], with its SHA-256 digest. *)
Definition other_manager : EncryptionManager :=
  {| password_bytes := [108; 101; 116; 109; 101; 105; 110; 49]%Z;
     key := [46; 132; 74; 214; 81; 198; 185; 166; 156; 190; 143; 136; 123;
             106; 116; 221; 59; 159; 196; 137; 170; 231; 119; 112; 30; 110;
             45; 13; 82; 58; 12; 251]%Z |}.

(** The masked form of [sample_text] under [sample_manager]. *)
Definition sample_masked : list Z :=
  [117; 66; 47; 116; 99; 72; 75; 119; 74; 66; 52; 54; 73; 72; 114; 51;
   68; 81; 87; 65]%Z.

(** ** M. The comparison wizard of [main] *)

(** [itertools.combinations(l, 2)]. *)
Fixpoint combinations2 {A : Type} (l : list A) : list (A * A) :=
  match l with
  | [] => []
  | x :: t => map (pair x) t ++ combinations2 t
  end.

(** The 21 questions. *)
Definition wizard_pairs : list (domain * domain) := combinations2 DOMAINS.

Definition pair_eqb (p q : domain * domain) : bool :=
  if domain_eq_dec (fst p) (fst q)
  then if domain_eq_dec (snd p) (snd q) then true else false
  else false.

(** [d[k] = v] on a dict kept in insertion order: a key that is present
    keeps its place. *)
Fixpoint dict_set (d : list judgment) (k : domain * domain) (v : domain)
  : list judgment :=
  match d with
  | [] => [(k, v)]
  | (k', v') :: t =>
      if pair_eqb k' k then (k', v) :: t else (k', v') :: dict_set t k v
  end.

(** The two session entries of the wizard. *)
Record wizard_state : Type := {
  q_wizard_step : nat;
  q_comparisons : list judgment
}.

(** The state after "discover your values" was pressed. *)
Definition wizard_start : wizard_state :=
  {| q_wizard_step := 1; q_comparisons := [] |}.

(** One answer: the first or the second domain of the current pair is
    stored as its winner and the wizard moves on. Past the last question no
    button is shown. *)
Definition wizard_click (st : wizard_state) (first : bool) : wizard_state :=
  let step := q_wizard_step st in
  if ((0 <? step) && (step <=? length wizard_pairs))%nat then
    match nth_error wizard_pairs (step - 1) with
    | Some current =>
        {| q_wizard_step := S step;
           q_comparisons :=
             dict_set (q_comparisons st) current
                      (if first then fst current else snd current) |}
    | None => st
    end
  else st.

Definition wizard_run (answers : list bool) : wizard_state :=
  fold_left wizard_click answers wizard_start.

(** The slider values after the wizard: [zip(DOMAINS, estimated_weights)]
    read with [default_q_values.get(domain, 14)]. *)
Definition wizard_values (estimated_weights : list Z) (d : domain) : Z :=
  match item_map DOMAINS d with
  | Some i => nth i estimated_weights 14%Z
  | None => 14%Z
  end.

(** A row with the weights and the scores of [example_row] exchanged. *)
Definition swapped_row : row :=
  {| q_col := fun d => match d with
                       | health => Some 100
                       | relationships => Some 0
                       | _ => None
                       end;
     s_col := fun d => match d with
                       | health | relationships => Some (1 / 2)
                       | _ => Some 0
                       end;
     s_elements := fun _ => [];
     g_happiness := Some 50 |}.

(** * Properties *)

(** ** Sums and means *)

Lemma np_sum_map_div (v : list R) (c : R) :
  np_sum (map (fun x => x / c) v) = np_sum v / c.
Proof.
  induction v as [|x v IH]; simpl.
  - unfold Rdiv; ring.
  - rewrite IH. unfold Rdiv; ring.
Qed.

Lemma np_sum_nonneg (v : list R) :
  (forall x, In x v -> 0 <= x) -> 0 <= np_sum v.
Proof.
  induction v as [|x v IH]; simpl; intros Hv; [lra|].
  assert (0 <= x) by (apply Hv; now left).
  assert (0 <= np_sum v) by (apply IH; intros y Hy; apply Hv; now right).
  lra.
Qed.

(** Every row of the result of [calculate_metrics] is a row of the frame
    together with its own scores. *)
Lemma calculate_metrics_In (df : list row) (alpha : R) (r : row) (sc : scored) :
  In (r, sc) (calculate_metrics df alpha) <-> In r df /\ sc = score_row alpha r.
Proof.
  unfold calculate_metrics. rewrite in_map_iff. split.
  - intros [r' [E Hin]]. inversion E; subst. auto.
  - intros [Hin ->]. exists r. auto.
Qed.

Lemma calculate_metrics_length (df : list row) (alpha : R) :
  length (calculate_metrics df alpha) = length df.
Proof. unfold calculate_metrics. apply length_map. Qed.

Ltac scored_row H :=
  apply calculate_metrics_In in H; destruct H as [_ ->].

(** ** Satisfaction *)

Lemma satisfaction_expand (r : row) :
  satisfaction r =
    q_filled r health * (s_filled r health / 100)
  + q_filled r relationships * (s_filled r relationships / 100)
  + q_filled r meaning * (s_filled r meaning / 100)
  + q_filled r autonomy * (s_filled r autonomy / 100)
  + q_filled r finance * (s_filled r finance / 100)
  + q_filled r leisure * (s_filled r leisure / 100)
  + q_filled r competition * (s_filled r competition / 100).
Proof. unfold satisfaction, q_vector, s_vector; simpl. lra. Qed.



(** The example of the specification has [S = 0.5]. *)
Lemma example_row_satisfaction : satisfaction example_row = 1 / 2.
Proof.
  rewrite satisfaction_expand.
  unfold q_filled, s_filled, domain_score; simpl. lra.
Qed.



(** ** Unity *)






(** A zero-sum ideal vector or a zero-sum score vector gives Unity 0. *)
Lemma calculate_unity_zero_sum (r : row) :
  np_sum (q_vector r) = 0 \/ np_sum (s_vector r) = 0 ->
  calculate_unity r = Some 0.
Proof.
  intros H. unfold calculate_unity.
  destruct (Req_dec_T (np_sum (q_vector r)) 0) as [_|Hq]; [reflexivity|].
  destruct (Req_dec_T (np_sum (s_vector r)) 0) as [_|Hs]; [reflexivity|].
  destruct H; contradiction.
Qed.

(** C3. For every record whose ideal vector sums to 0, or whose domain-score
    vector sums to 0 (in particular when every score is 0), the [U] column
    of [calculate_metrics] is exactly 0: a value, not an error. *)
Theorem unity_zero_sum_guard :
  forall (df : list row) (alpha : R) (r : row) (sc : scored),
    In (r, sc) (calculate_metrics df alpha) ->
    (np_sum (q_vector r) = 0 -> U_ sc = Some 0)
    /\ (np_sum (s_vector r) = 0 -> U_ sc = Some 0)
    /\ ((forall d, s_filled r d = 0) -> U_ sc = Some 0).
Proof.
  intros df alpha r sc Hin. scored_row Hin. simpl.
  split; [|split].
  - intros H. apply calculate_unity_zero_sum. now left.
  - intros H. apply calculate_unity_zero_sum. now right.
  - intros H. apply calculate_unity_zero_sum. right.
    unfold s_vector. simpl. rewrite !H. lra.
Qed.

Lemma unity_zero_sum_guard_witness :
  U_ (score_row default_alpha blank_row) = Some 0.
Proof.
  refine (proj1 (unity_zero_sum_guard [blank_row] default_alpha blank_row
                   (score_row default_alpha blank_row) _) _).
  - simpl. left. reflexivity.
  - unfold q_vector, q_filled. simpl. lra.
Defined.


Lemma sum_ext_infinite (l : list (option R)) :
  In None l -> sum_ext l = None.
Proof.
  induction l as [|x l IH]; intros H; [contradiction|].
  destruct H as [->|H]; [reflexivity|].
  simpl. destruct x; [rewrite (IH H)|]; reflexivity.
Qed.

Lemma rel_entr_negative (x y : R) : x < 0 -> rel_entr x y = None.
Proof.
  intros H. unfold rel_entr.
  destruct (Rlt_dec 0 x); [exfalso; lra|].
  destruct (Req_dec_T x 0); [exfalso; lra|reflexivity].
Qed.

(** The sign condition is needed: with a negative weight the relative
    entropy is infinite and Unity is not a finite number, even though both
    sums are 1 and the two distributions are the same. *)
Lemma calculate_unity_signed_row : calculate_unity signed_row = None.
Proof.
  unfold calculate_unity.
  assert (Eq : np_sum (q_vector signed_row) = 1)
    by (unfold q_vector, q_filled; simpl; lra).
  assert (Es : np_sum (s_vector signed_row) = 1)
    by (unfold s_vector, s_filled, domain_score; simpl; lra).
  rewrite Eq, Es.
  destruct (Req_dec_T 1 0) as [E|_]; [exfalso; lra|].
  unfold jensenshannon, normalize.
  set (p := map (fun x => x / 1) (q_vector signed_row)).
  set (q := map (fun x => x / 1) (s_vector signed_row)).
  assert (Ep : np_sum p = 1)
    by (unfold p; rewrite np_sum_map_div, Eq; lra).
  assert (Eq' : np_sum q = 1)
    by (unfold q; rewrite np_sum_map_div, Es; lra).
  rewrite Ep, Eq'.
  destruct (Req_dec_T 1 0) as [E|_]; [exfalso; lra|].
  rewrite sum_ext_infinite; [reflexivity|].
  unfold p, q, q_vector, s_vector, q_filled, s_filled, domain_score.
  cbn [map combine DOMAINS signed_row q_col s_col s_elements fillna0 fst snd].
  right. left. apply rel_entr_negative. lra.
Qed.





(** ** Harmony *)





(** ** Risk-adjusted Harmony Index *)

Lemma calculate_rhi_metrics_nonempty (h : list R) (lam gam tau : R) :
  h <> [] ->
  calculate_rhi_metrics h lam gam tau =
  {| mean_H := series_mean h;
     std_H := series_std0 h;
     frac_below := series_mean (below tau h);
     RHI := series_mean h - lam * series_std0 h
            - gam * series_mean (below tau h) |}.
Proof. destruct h; [contradiction | reflexivity]. Qed.

Lemma INR_length_pos {A : Type} (l : list A) : l <> [] -> 0 < INR (length l).
Proof.
  destruct l; [contradiction|]. intros _. apply lt_0_INR. simpl. lia.
Qed.

Lemma np_sum_below (tau : R) (h : list R) :
  np_sum (below tau h) = INR (count_below tau h).
Proof.
  unfold below, count_below. induction h as [|x h IH]; [reflexivity|].
  cbn [map filter np_sum fold_right]. fold (np_sum (map
    (fun x0 => if Rlt_dec x0 tau then 1 else 0) h)). rewrite IH.
  destruct (Rlt_dec x tau).
  - cbn [length]. rewrite S_INR. lra.
  - lra.
Qed.

Lemma np_sum_squares_nonneg (m : R) (h : list R) :
  0 <= np_sum (map (fun x => (x - m) * (x - m)) h).
Proof.
  apply np_sum_nonneg. intros y Hy. apply in_map_iff in Hy.
  destruct Hy as [x [<- _]]. apply Rle_0_sqr.
Qed.

(** C7. For every non-empty window and all parameters, the result of
    [calculate_rhi_metrics] satisfies [RHI = mean_H - lambda * std_H -
    gamma * frac_below], where [mean_H] is the arithmetic mean, [std_H] is
    the non-negative root of the mean squared deviation with divisor [n]
    (not [n - 1]), and [frac_below] is the share of records strictly below
    [tau]; with [lambda = 0] and [gamma = 0], [RHI] is [mean_H]. *)
Theorem rhi_formula :
  forall (h : list R) (lam gam tau : R),
    h <> [] ->
    let res := calculate_rhi_metrics h lam gam tau in
    let n := INR (length h) in
    RHI res = mean_H res - lam * std_H res - gam * frac_below res
    /\ mean_H res * n = np_sum h
    /\ 0 <= std_H res
    /\ std_H res * std_H res * n
       = np_sum (map (fun x => (x - mean_H res) * (x - mean_H res)) h)
    /\ frac_below res * n = INR (count_below tau h)
    /\ RHI (calculate_rhi_metrics h 0 0 tau)
       = mean_H (calculate_rhi_metrics h 0 0 tau).
Proof.
  intros h lam gam tau Hne res n. subst res.
  rewrite !calculate_rhi_metrics_nonempty by assumption. simpl.
  assert (Hn : 0 < n) by (apply INR_length_pos; assumption).
  split; [reflexivity|]. split; [|split; [|split; [|split]]].
  - unfold series_mean. fold n. field. lra.
  - unfold series_std0. apply sqrt_pos.
  - unfold series_std0. rewrite Nat.sub_0_r. fold n.
    rewrite sqrt_sqrt.
    + field. lra.
    + apply Rle_mult_inv_pos; [apply np_sum_squares_nonneg | exact Hn].
  - unfold series_mean. unfold below at 2. rewrite length_map. fold n.
    rewrite np_sum_below. field. lra.
  - ring.
Qed.

Lemma rhi_formula_witness :
  RHI (calculate_rhi_metrics [1; 0] 0 0 (1 / 2))
  = mean_H (calculate_rhi_metrics [1; 0] 0 0 (1 / 2)).
Proof.
  refine (proj2 (proj2 (proj2 (proj2 (proj2
            (rhi_formula [1; 0] 0 0 (1 / 2) _)))))).
  discriminate.
Defined.

(** The divisor is the number of records: on the window [1; 0] the
    deviation is [1/2], where the sample deviation would be [sqrt (1/2)]. *)
Lemma series_std0_two_records : series_std0 [1; 0] = 1 / 2.
Proof.
  unfold series_std0, series_mean. simpl.
  replace ((1 - (1 + (0 + 0)) / (1 + 1)) * (1 - (1 + (0 + 0)) / (1 + 1))
           + ((0 - (1 + (0 + 0)) / (1 + 1)) * (0 - (1 + (0 + 0)) / (1 + 1))
              + 0)) with (2 * (1 / 2 * (1 / 2))) by field.
  replace (2 * (1 / 2 * (1 / 2)) / (1 + 1)) with ((1 / 2) * (1 / 2)) by field.
  apply sqrt_square. lra.
Qed.

(** A record exactly at the threshold does not count as below it. *)
Lemma frac_below_strict (x : R) :
  frac_below (calculate_rhi_metrics [x] 0 0 x) = 0.
Proof.
  simpl. unfold series_mean, below. simpl.
  destruct (Rlt_dec x x) as [H|_]; [exfalso; lra|]. simpl. lra.
Qed.

(** C8. On the empty window the four outputs of [calculate_rhi_metrics] are
    0; on a window of one record [std_H] is 0, [mean_H] is that record's
    [H], and [RHI = mean_H - gamma * frac_below]. *)
Theorem rhi_edge_windows :
  forall (lam gam tau : R),
    (let res := calculate_rhi_metrics [] lam gam tau in
     mean_H res = 0 /\ std_H res = 0 /\ frac_below res = 0 /\ RHI res = 0)
    /\ (forall x : R,
          let res := calculate_rhi_metrics [x] lam gam tau in
          std_H res = 0 /\ mean_H res = x
          /\ RHI res = mean_H res - gam * frac_below res).
Proof.
  intros lam gam tau. split.
  - simpl. repeat split.
  - intros x. simpl.
    assert (Hm : series_mean [x] = x).
    { unfold series_mean. simpl. field. }
    assert (Hs : series_std0 [x] = 0).
    { unfold series_std0. rewrite Hm. simpl.
      replace (((x - x) * (x - x) + 0) / 1) with 0 by (field).
      apply sqrt_0. }
    rewrite Hs, Hm. repeat split. ring.
Qed.

(** ** Discrepancy analysis *)


Lemma analyze_discrepancy_empty (threshold : Z) :
  analyze_discrepancy [] threshold = None.
Proof. reflexivity. Qed.




(** ** Weight solver *)

Lemma set_nth_length {A : Type} (l : list A) (i : nat) (v : A) :
  length (set_nth l i v) = length l.
Proof.
  revert i. induction l as [|x l IH]; intros [|i]; simpl; auto.
Qed.

Lemma mat_set_length (m : matrix) (i j : nat) (v : R) :
  length (mat_set m i j v) = length m.
Proof.
  unfold mat_set. destruct (nth_error m i); [apply set_nth_length|reflexivity].
Qed.

Lemma item_map_DOMAINS (x : domain) : exists i, item_map DOMAINS x = Some i.
Proof. destruct x; eexists; reflexivity. Qed.

Lemma apply_judgment_DOMAINS (m : matrix) (c : judgment) :
  exists m', apply_judgment DOMAINS m c = Some m' /\ length m' = length m.
Proof.
  destruct c as [[item1 item2] winner]. unfold apply_judgment.
  destruct (item_map_DOMAINS item1) as [i ->].
  destruct (item_map_DOMAINS item2) as [j ->].
  destruct (domain_eq_dec winner item1);
    [|destruct (domain_eq_dec winner item2)];
    eexists; (split; [reflexivity|]); rewrite ?mat_set_length; reflexivity.
Qed.

Lemma build_matrix_from_DOMAINS (comparisons : list judgment) (m : matrix) :
  exists m', build_matrix_from DOMAINS m comparisons = Some m'
             /\ length m' = length m.
Proof.
  revert m. induction comparisons as [|c rest IH]; intros m; simpl.
  - exists m. auto.
  - destruct (apply_judgment_DOMAINS m c) as [m1 [-> L1]].
    destruct (IH m1) as [m2 [-> L2]]. exists m2. split; [reflexivity|].
    congruence.
Qed.

(** Over the seven domains no lookup fails: the matrix is always built, and
    it has seven rows. *)
Lemma build_matrix_DOMAINS (comparisons : list judgment) :
  exists m, build_matrix comparisons DOMAINS = Some m /\ length m = 7%nat.
Proof.
  unfold build_matrix.
  destruct (build_matrix_from_DOMAINS comparisons (np_ones (length DOMAINS)))
    as [m [E L]].
  exists m. split; [exact E|]. rewrite L. reflexivity.
Qed.

Lemma build_matrix_empty : build_matrix [] DOMAINS = Some (np_ones 7).
Proof. reflexivity. Qed.

Lemma add_at_length (l : list Z) (i : nat) (d : Z) :
  length (add_at l i d) = length l.
Proof.
  revert i. induction l as [|x l IH]; intros [|i]; simpl; auto.
Qed.

Lemma sumZ_add_at (l : list Z) (i : nat) (d : Z) :
  (i < length l)%nat -> sumZ (add_at l i d) = (sumZ l + d)%Z.
Proof.
  revert i. induction l as [|x l IH]; intros i Hi; simpl in Hi; [lia|].
  destruct i as [|i]; simpl.
  - lia.
  - rewrite IH by lia. lia.
Qed.

Lemma argmax_from_bound (l : list Z) (i best_i : nat) (best : Z) :
  (best_i < i)%nat -> (argmax_from l i best_i best < i + length l)%nat.
Proof.
  revert i best_i best. induction l as [|x l IH]; intros i bi best Hb; simpl.
  - lia.
  - destruct (best <? x)%Z.
    + specialize (IH (S i) i x). lia.
    + specialize (IH (S i) bi best). lia.
Qed.

Lemma np_argmax_bound (l : list Z) :
  l <> [] -> exists k, np_argmax l = Some k /\ (k < length l)%nat.
Proof.
  destruct l as [|x l]; [contradiction|]. intros _. simpl.
  eexists. split; [reflexivity|].
  pose proof (argmax_from_bound l 1 0 x). lia.
Qed.

(** The patch of the largest component makes the integer weights sum to 100,
    whatever the eigenvector was. *)
Lemma ahp_int_weights_sum (v : list R) :
  np_sum v <> 0 ->
  exists w, ahp_int_weights v = Some w
            /\ length w = length v /\ sumZ w = 100%Z.
Proof.
  intros Hs. unfold ahp_int_weights, normalize.
  destruct (Req_dec_T (np_sum v) 0) as [E|_]; [contradiction|].
  set (w0 := map clip0 (map (fun x => x / np_sum v) v)).
  set (weights := if Req_dec_T (np_sum w0) 0
                  then map (fun _ => 1 / INR (length w0)) w0 else w0).
  set (int_weights := map (fun x => np_round (x * 100)) weights).
  assert (Hlen : length int_weights = length v).
  { unfold int_weights, weights.
    destruct (Req_dec_T (np_sum w0) 0); unfold w0; rewrite !length_map;
      reflexivity. }
  destruct (100 - sumZ int_weights =? 0)%Z eqn:Hd.
  - exists int_weights. split; [reflexivity|]. split; [exact Hlen|].
    apply Z.eqb_eq in Hd. lia.
  - assert (Hne : int_weights <> []).
    { intros E. rewrite E in Hlen. simpl in Hlen.
      destruct v; [simpl in Hs; lra | discriminate]. }
    destruct (np_argmax_bound int_weights Hne) as [k [-> Hk]].
    eexists. split; [reflexivity|].
    rewrite add_at_length, sumZ_add_at by exact Hk. split; [exact Hlen|lia].
Qed.

Lemma nth_set_nth_other {A : Type} (l : list A) (i k : nat) (v d : A) :
  k <> i -> nth k (set_nth l i v) d = nth k l d.
Proof.
  revert i k. induction l as [|x l IH]; intros [|i] [|k] H; simpl;
    try reflexivity; try congruence.
  apply IH. congruence.
Qed.

Lemma nth_set_nth_same {A : Type} (l : list A) (i : nat) (v d : A) :
  (i < length l)%nat -> nth i (set_nth l i v) d = v.
Proof.
  revert i. induction l as [|x l IH]; intros [|i] H; simpl in *;
    try lia; auto. apply IH. lia.
Qed.

(** Writing one cell leaves every other cell as it was. *)
Lemma mat_get_set_other (m : matrix) (i j i' j' : nat) (v : R) :
  i' <> i \/ j' <> j ->
  mat_get (mat_set m i j v) i' j' = mat_get m i' j'.
Proof.
  intros H. unfold mat_get, mat_set.
  destruct (nth_error m i) as [line|] eqn:E; [|reflexivity].
  destruct (Nat.eq_dec i' i) as [->|Hi].
  - assert (Hlt : (i < length m)%nat)
      by (apply nth_error_Some; congruence).
    rewrite nth_set_nth_same by exact Hlt.
    rewrite (nth_error_nth m i [] E).
    apply nth_set_nth_other. destruct H; congruence.
  - rewrite nth_set_nth_other by exact Hi. reflexivity.
Qed.

Lemma item_map_DOMAINS_inj (a b : domain) :
  item_map DOMAINS a = item_map DOMAINS b -> a = b.
Proof. destruct a, b; intros H; try reflexivity; discriminate H. Qed.

Lemma np_ones_entry (a b : domain) : entry DOMAINS (np_ones 7) a b = Some 1.
Proof. destruct a, b; reflexivity. Qed.

(** A judgment changes only the two cells of its own pair. *)
Lemma apply_judgment_other (m m' : matrix) (c : judgment) (a b : domain) :
  apply_judgment DOMAINS m c = Some m' ->
  fst c <> (a, b) -> fst c <> (b, a) ->
  entry DOMAINS m' a b = entry DOMAINS m a b.
Proof.
  destruct c as [[item1 item2] winner]. cbn [fst]. intros Happ N1 N2.
  unfold apply_judgment in Happ. unfold entry.
  destruct (item_map DOMAINS item1) as [i|] eqn:E1; [|discriminate].
  destruct (item_map DOMAINS item2) as [j|] eqn:E2; [|discriminate].
  destruct (item_map DOMAINS a) as [ia|] eqn:Ea; [|reflexivity].
  destruct (item_map DOMAINS b) as [ib|] eqn:Eb; [|reflexivity].
  assert (D1 : ia <> i \/ ib <> j).
  { destruct (Nat.eq_dec ia i) as [->|]; [|now left].
    destruct (Nat.eq_dec ib j) as [->|]; [|now right].
    exfalso. apply N1. f_equal; apply item_map_DOMAINS_inj; congruence. }
  assert (D2 : ia <> j \/ ib <> i).
  { destruct (Nat.eq_dec ia j) as [->|]; [|now left].
    destruct (Nat.eq_dec ib i) as [->|]; [|now right].
    exfalso. apply N2. f_equal; apply item_map_DOMAINS_inj; congruence. }
  destruct (domain_eq_dec winner item1);
    [|destruct (domain_eq_dec winner item2)];
    inversion Happ; subst m'; rewrite ?mat_get_set_other by assumption;
    reflexivity.
Qed.

Lemma build_matrix_from_unjudged (comparisons : list judgment)
  (m m' : matrix) (a b : domain) :
  build_matrix_from DOMAINS m comparisons = Some m' ->
  unjudged comparisons a b ->
  entry DOMAINS m' a b = entry DOMAINS m a b.
Proof.
  revert m. induction comparisons as [|c rest IH]; intros m Hb Hu;
    simpl in Hb.
  - inversion Hb. reflexivity.
  - destruct (apply_judgment DOMAINS m c) as [m1|] eqn:E; [|discriminate].
    rewrite (IH m1 Hb).
    + apply (apply_judgment_other m m1 c a b E); apply Hu; now left.
    + intros c' Hc'. apply Hu. now right.
Qed.

(** A pair without judgment keeps the entry 1 ("no preference"). *)
Lemma build_matrix_unjudged (comparisons : list judgment) (m : matrix)
  (a b : domain) :
  build_matrix comparisons DOMAINS = Some m ->
  unjudged comparisons a b ->
  entry DOMAINS m a b = Some 1.
Proof.
  intros Hb Hu. unfold build_matrix in Hb.
  rewrite (build_matrix_from_unjudged comparisons _ m a b Hb Hu).
  apply np_ones_entry.
Qed.

(** C5. For every judgment set over the seven domains (empty, partial or
    complete) the comparison matrix is built without a failed lookup, a pair
    without judgment keeps the entry 1, and for every eigenvector returned
    for that matrix that has one component per domain and a nonzero sum,
    [calculate_ahp_weights] returns, without raising, seven integer weights
    whose sum is exactly 100. *)
Theorem ahp_weights_sum_100 :
  forall (eig : matrix -> list R) (comparisons : list judgment),
    (forall m, build_matrix comparisons DOMAINS = Some m ->
               length (eig m) = length m /\ np_sum (eig m) <> 0) ->
    exists m w,
      build_matrix comparisons DOMAINS = Some m
      /\ (forall a b, unjudged comparisons a b ->
                      entry DOMAINS m a b = Some 1)
      /\ calculate_ahp_weights eig comparisons DOMAINS = Some w
      /\ length w = 7%nat /\ sumZ w = 100%Z.
Proof.
  intros eig comparisons Heig. unfold calculate_ahp_weights.
  destruct (build_matrix_DOMAINS comparisons) as [m [E L]]. rewrite E.
  destruct (Heig m E) as [Hlen Hsum].
  destruct (ahp_int_weights_sum (eig m) Hsum) as [w [Hw [Lw Sw]]].
  exists m, w. split; [reflexivity|]. split.
  - intros a b Hu. now apply (build_matrix_unjudged comparisons).
  - split; [exact Hw|]. split; [congruence|exact Sw].
Qed.

Lemma ahp_weights_sum_100_witness :
  exists m w,
    build_matrix [] DOMAINS = Some m
    /\ (forall a b, unjudged [] a b -> entry DOMAINS m a b = Some 1)
    /\ calculate_ahp_weights ones_eigenvector [] DOMAINS = Some w
    /\ length w = 7%nat /\ sumZ w = 100%Z.
Proof.
  apply (ahp_weights_sum_100 ones_eigenvector []).
  intros m E. rewrite build_matrix_empty in E. inversion E; subst m.
  split; [reflexivity|]. unfold ones_eigenvector. simpl. lra.
Defined.

(** *** The empty judgment set *)

Lemma clip0_nonneg (x : R) : 0 <= x -> clip0 x = x.
Proof. intros H. unfold clip0. destruct (Rlt_dec x 0); [exfalso; lra|auto]. Qed.

Lemma floorZ_between (x : R) (z : Z) :
  IZR z <= x < IZR z + 1 -> floorZ x = z.
Proof.
  intros [Hl Hu]. unfold floorZ.
  rewrite <- (tech_up x (z + 1)).
  - lia.
  - rewrite plus_IZR. lra.
  - rewrite plus_IZR. lra.
Qed.

(** Below the half, [np_round] is the floor. *)
Lemma np_round_down (x : R) (z : Z) :
  IZR z <= x < IZR z + 1 / 2 -> np_round x = z.
Proof.
  intros [Hl Hu]. unfold np_round.
  rewrite (floorZ_between x z) by lra.
  destruct (Rlt_dec (x - IZR z) (1 / 2)); [reflexivity|exfalso; lra].
Qed.

Lemma np_round_uniform_share : np_round (1 / 7 * 100) = 14%Z.
Proof. apply np_round_down. lra. Qed.

(** A uniform eigenvector, whatever its scale and sign, gives 14 to every
    domain after rounding; the residual 2 goes to the first one. *)
Lemma ahp_int_weights_uniform (c : R) :
  c <> 0 ->
  ahp_int_weights (repeat c 7) = Some [16; 14; 14; 14; 14; 14; 14]%Z.
Proof.
  intros Hc. unfold ahp_int_weights, normalize.
  destruct (Req_dec_T (np_sum (repeat c 7)) 0) as [E|_].
  { simpl in E. exfalso. lra. }
  assert (Hn : map (fun x => x / np_sum (repeat c 7)) (repeat c 7)
               = repeat (1 / 7) 7).
  { assert (Hq : c / np_sum (repeat c 7) = 1 / 7) by (simpl; field; lra).
    cbn [map repeat] in *. rewrite Hq. reflexivity. }
  rewrite Hn.
  assert (Hc0 : map clip0 (repeat (1 / 7) 7) = repeat (1 / 7) 7).
  { simpl. rewrite clip0_nonneg by lra. reflexivity. }
  rewrite Hc0.
  destruct (Req_dec_T (np_sum (repeat (1 / 7) 7)) 0) as [E|_].
  { simpl in E. exfalso. lra. }
  assert (Hr : map (fun x => np_round (x * 100)) (repeat (1 / 7) 7)
               = repeat 14%Z 7).
  { simpl. rewrite np_round_uniform_share. reflexivity. }
  rewrite Hr. reflexivity.
Qed.

(** The vector of ones is an eigenvector of the all-ones matrix of order 7,
    for the eigenvalue 7. *)
Lemma ones_eigenpair : eigenpair (np_ones 7) 7 (repeat 1 7).
Proof.
  unfold eigenpair. split; [reflexivity|]. split.
  - exists 1. split; [now left | lra].
  - unfold mat_vec, dot. simpl.
    repeat (apply f_equal2; [lra|]). reflexivity.
Qed.

(** Every real eigenvalue of the all-ones matrix of order 7 is 0 or 7, and
    the eigenvectors for a nonzero eigenvalue are uniform. *)
Lemma ones_eigen_structure (lam : R) (v : list R) :
  eigenpair (np_ones 7) lam v ->
  (lam = 0 \/ lam = 7) /\ (lam <> 0 -> exists c, c <> 0 /\ v = repeat c 7).
Proof.
  intros [Hlen [[x [Hin Hx]] Heq]].
  destruct v as [|a [|b [|c [|d [|e [|f [|g [|? ?]]]]]]]]; try discriminate.
  unfold mat_vec, dot in Heq. simpl in Heq. clear Hlen.
  injection Heq as Ea Eb Ec Ed Ee Ef Eg.
  set (s := a + b + c + d + e + f + g).
  assert (Ha : lam * a = s) by (unfold s; lra).
  assert (Hb : lam * b = s) by (unfold s; lra).
  assert (Hc : lam * c = s) by (unfold s; lra).
  assert (Hd : lam * d = s) by (unfold s; lra).
  assert (He : lam * e = s) by (unfold s; lra).
  assert (Hf : lam * f = s) by (unfold s; lra).
  assert (Hg : lam * g = s) by (unfold s; lra).
  assert (Hs : lam * s = 7 * s) by (unfold s at 1; lra).
  split.
  - destruct (Req_dec_T s 0) as [Z0|NZ].
    + left.
      assert (Hx0 : lam * x = 0).
      { simpl in Hin.
        destruct Hin as [<-|[<-|[<-|[<-|[<-|[<-|[<-|[]]]]]]]]; lra. }
      apply Rmult_integral in Hx0. destruct Hx0; [assumption|contradiction].
    + right. apply (Rmult_eq_reg_r s); assumption.
  - intros Hl. exists a.
    assert (Eq : forall y, lam * y = s -> y = a).
    { intros y Hy. apply (Rmult_eq_reg_l lam); [lra|assumption]. }
    rewrite (Eq b Hb), (Eq c Hc), (Eq d Hd), (Eq e He), (Eq f Hf), (Eq g Hg)
      in *.
    split; [|reflexivity].
    simpl in Hin. intuition congruence.
Qed.

Lemma ones_principal : principal_eigenvector (np_ones 7) (repeat 1 7).
Proof.
  exists 7. split; [apply ones_eigenpair|].
  intros lam' v' H. destruct (ones_eigen_structure lam' v' H) as [[->| ->] _];
    lra.
Qed.

(** A principal eigenvector of the all-ones matrix is uniform and nonzero. *)
Lemma ones_principal_uniform (v : list R) :
  principal_eigenvector (np_ones 7) v ->
  exists c, c <> 0 /\ v = repeat c 7.
Proof.
  intros [lam [Hp Hmax]].
  pose proof (Hmax 7 (repeat 1 7) ones_eigenpair) as H7.
  apply (ones_eigen_structure lam v Hp). lra.
Qed.

(** C6. With no judgment at all the comparison matrix is all ones, its
    principal eigenvector is uniform, every domain rounds to 14, and the
    residual of 2 is added to the first domain in enumeration order: the
    weights are 16 for [health] and 14 for each of the six others, which sum
    to exactly 100. *)
Theorem ahp_empty_judgments :
  forall (eig : matrix -> list R),
    principal_eigenvector (np_ones 7) (eig (np_ones 7)) ->
    calculate_ahp_weights eig [] DOMAINS
    = Some [16; 14; 14; 14; 14; 14; 14]%Z
    /\ sumZ [16; 14; 14; 14; 14; 14; 14]%Z = 100%Z.
Proof.
  intros eig Hp. split; [|reflexivity].
  unfold calculate_ahp_weights. rewrite build_matrix_empty.
  destruct (ones_principal_uniform _ Hp) as [c [Hc ->]].
  now apply ahp_int_weights_uniform.
Qed.

Lemma ahp_empty_judgments_witness :
  calculate_ahp_weights ones_eigenvector [] DOMAINS
  = Some [16; 14; 14; 14; 14; 14; 14]%Z.
Proof.
  refine (proj1 (ahp_empty_judgments ones_eigenvector _)).
  exact ones_principal.
Defined.

(** No domain receives 15 on the empty judgment set: six weights of 14 and
    one of 15 would sum to 99. *)
Lemma ahp_empty_not_15 :
  principal_eigenvector (np_ones 7) (ones_eigenvector (np_ones 7))
  /\ calculate_ahp_weights ones_eigenvector [] DOMAINS
     = Some [16; 14; 14; 14; 14; 14; 14]%Z
  /\ ~ (exists w, calculate_ahp_weights ones_eigenvector [] DOMAINS = Some w
                  /\ In 15%Z w).
Proof.
  assert (E : calculate_ahp_weights ones_eigenvector [] DOMAINS
              = Some [16; 14; 14; 14; 14; 14; 14]%Z).
  { unfold calculate_ahp_weights. rewrite build_matrix_empty.
    apply (ahp_int_weights_uniform 1). lra. }
  split; [exact ones_principal|]. split; [exact E|].
  intros [w [Hw Hin]]. rewrite E in Hw. inversion Hw; subst w.
  simpl in Hin. intuition discriminate.
Qed.

(** ** The masking engine *)

Section MaskingProperties.
Local Open Scope Z_scope.

Ltac zdm := Z.div_mod_to_equations; lia.

(** A check over the first [n] integers, done by evaluation. *)
Lemma forallb_Z_range (n : nat) (p : Z -> bool) :
  forallb p (map Z.of_nat (seq 0 n)) = true ->
  forall i, 0 <= i < Z.of_nat n -> p i = true.
Proof.
  intros H i Hi. rewrite forallb_forall in H. apply H.
  apply in_map_iff. exists (Z.to_nat i). split; [lia|].
  apply in_seq. lia.
Qed.

(** *** Base64 *)

Lemma b64_index_char (v : Z) :
  0 <= v < 64 -> b64_index (b64_char v) = Some v.
Proof.
  intros Hv.
  assert (H : (match b64_index (b64_char v) with
               | Some j => j =? v
               | None => false
               end) = true).
  { apply (forallb_Z_range 64
             (fun i => match b64_index (b64_char i) with
                       | Some j => j =? i
                       | None => false
                       end)); [reflexivity|exact Hv]. }
  destruct (b64_index (b64_char v)); [|discriminate].
  apply Z.eqb_eq in H. now subst.
Qed.

Lemma b64_char_not_pad (v : Z) :
  0 <= v < 64 -> (b64_char v =? b64_pad) = false.
Proof.
  intros Hv.
  apply (forallb_Z_range 64 (fun i => negb (b64_char i =? b64_pad)))
    in Hv; [|reflexivity].
  now apply negb_true_iff in Hv.
Qed.

Lemma b64_char_ascii (v : Z) : 0 <= v < 64 -> is_ascii (b64_char v).
Proof.
  intros Hv.
  apply (forallb_Z_range 64
           (fun i => (0 <=? b64_char i) && (b64_char i <? 128)))
    in Hv; [|reflexivity].
  apply andb_true_iff in Hv. destruct Hv as [H1 H2].
  apply Z.leb_le in H1. apply Z.ltb_lt in H2. split; assumption.
Qed.

(** One alphabet character moves the decoder to the next position of the
    group. *)
Lemma a2b_base64_char (v : Z) (rest : bytes) (quad_pos : nat) (leftchar : Z)
  (pads : nat) :
  0 <= v < 64 ->
  a2b_base64 (b64_char v :: rest) quad_pos leftchar pads =
  match quad_pos with
  | 0%nat => a2b_base64 rest 1 v 0
  | 1%nat => option_map (cons (leftchar * 4 + v / 16))
                        (a2b_base64 rest 2 (v mod 16) 0)
  | 2%nat => option_map (cons (leftchar * 16 + v / 4))
                        (a2b_base64 rest 3 (v mod 4) 0)
  | _ => option_map (cons (leftchar * 64 + v)) (a2b_base64 rest 0 0 0)
  end.
Proof.
  intros Hv. cbn [a2b_base64].
  rewrite (b64_char_not_pad v Hv), (b64_index_char v Hv). reflexivity.
Qed.

(** A full group of four characters gives back its three bytes. *)
Lemma a2b_base64_group (a b c : Z) (rest : bytes) :
  is_byte a -> is_byte b -> is_byte c ->
  a2b_base64 (b64_char (a / 4) :: b64_char ((a mod 4) * 16 + b / 16)
              :: b64_char ((b mod 16) * 4 + c / 64) :: b64_char (c mod 64)
              :: rest) 0 0 0
  = option_map (fun out => a :: b :: c :: out) (a2b_base64 rest 0 0 0).
Proof.
  unfold is_byte. intros Ha Hb Hc.
  rewrite a2b_base64_char by zdm.
  rewrite a2b_base64_char by zdm.
  rewrite a2b_base64_char by zdm.
  rewrite a2b_base64_char by zdm.
  replace (a / 4 * 4 + ((a mod 4) * 16 + b / 16) / 16) with a by zdm.
  replace ((((a mod 4) * 16 + b / 16) mod 16) * 16
           + ((b mod 16) * 4 + c / 64) / 4) with b by zdm.
  replace ((((b mod 16) * 4 + c / 64) mod 4) * 64 + c mod 64) with c by zdm.
  destruct (a2b_base64 rest 0 0 0); reflexivity.
Qed.

Lemma list_ind3 {A : Type} (P : list A -> Prop) :
  P [] -> (forall a, P [a]) -> (forall a b, P [a; b]) ->
  (forall a b c l, P l -> P (a :: b :: c :: l)) ->
  forall l, P l.
Proof.
  intros H0 H1 H2 H3.
  assert (H : forall l, P l /\ (forall a, P (a :: l))
                        /\ (forall a b, P (a :: b :: l))).
  { induction l as [|x l [IH0 [IH1 IH2]]].
    - auto.
    - split; [apply IH1|]. split; [intros a; apply IH2|].
      intros a b. apply H3. exact IH0. }
  intros l. apply H.
Qed.

(** [b64decode] undoes [b64encode]. *)
Lemma b64decode_b64encode (bs : bytes) :
  Forall is_byte bs -> b64decode (b64encode bs) = Some bs.
Proof.
  unfold b64decode. induction bs as [|a|a b|a b c l IH] using list_ind3;
    intros Hb.
  - reflexivity.
  - inversion Hb as [|? ? Ha _]; subst. unfold is_byte in Ha.
    cbn [b64encode].
    rewrite a2b_base64_char by zdm. rewrite a2b_base64_char by zdm.
    cbn. f_equal. f_equal. zdm.
  - inversion Hb as [|? ? Ha Hb']; subst.
    inversion Hb' as [|? ? Hb0 _]; subst. unfold is_byte in Ha, Hb0.
    cbn [b64encode].
    rewrite a2b_base64_char by zdm. rewrite a2b_base64_char by zdm.
    rewrite a2b_base64_char by zdm.
    cbn. f_equal. f_equal; [zdm|]. f_equal. zdm.
  - inversion Hb as [|? ? Ha Hb1]; subst.
    inversion Hb1 as [|? ? Hb0 Hb2]; subst.
    inversion Hb2 as [|? ? Hc Hl]; subst.
    cbn [b64encode]. rewrite a2b_base64_group by assumption.
    rewrite (IH Hl). reflexivity.
Qed.

Lemma b64encode_ascii (bs : bytes) :
  Forall is_byte bs -> Forall is_ascii (b64encode bs).
Proof.
  assert (Hpad : is_ascii b64_pad) by (unfold is_ascii, b64_pad; lia).
  induction bs as [|a|a b|a b c l IH] using list_ind3; intros Hb.
  - constructor.
  - inversion Hb as [|? ? Ha _]; subst. unfold is_byte in Ha.
    cbn [b64encode].
    repeat (apply Forall_cons;
            [first [exact Hpad | apply b64_char_ascii; zdm]|]).
    apply Forall_nil.
  - inversion Hb as [|? ? Ha Hb']; subst.
    inversion Hb' as [|? ? Hb0 _]; subst. unfold is_byte in Ha, Hb0.
    cbn [b64encode].
    repeat (apply Forall_cons;
            [first [exact Hpad | apply b64_char_ascii; zdm]|]).
    apply Forall_nil.
  - inversion Hb as [|? ? Ha Hb1]; subst.
    inversion Hb1 as [|? ? Hb0 Hb2]; subst.
    inversion Hb2 as [|? ? Hc Hl]; subst. unfold is_byte in Ha, Hb0, Hc.
    cbn [b64encode].
    repeat (apply Forall_cons; [apply b64_char_ascii; zdm|]). apply IH, Hl.
Qed.

Lemma b64encode_nonempty (bs : bytes) : bs <> [] -> b64encode bs <> [].
Proof.
  destruct bs as [|a [|b [|c l]]]; [contradiction| | |];
    intros _; discriminate.
Qed.

(** *** UTF-8 *)

Ltac decide_tests :=
  repeat match goal with
    | |- context [?a <? ?b] =>
        destruct (Z.ltb_spec a b); try (exfalso; zdm)
    | |- context [?a <=? ?b] =>
        destruct (Z.leb_spec a b); try (exfalso; zdm)
    end.

(** The encoding of a scalar value is one to four bytes, and the decoder
    reads it back in front of any continuation. *)
Lemma utf8_decode_encode_cp (c : Z) (rest : bytes) :
  is_scalar c ->
  exists bs, utf8_encode_cp c = Some bs
             /\ Forall is_byte bs /\ bs <> []
             /\ utf8_decode (bs ++ rest)
                = option_map (cons c) (utf8_decode rest).
Proof.
  unfold is_scalar. intros Hc. unfold utf8_encode_cp.
  destruct (Z.ltb_spec c 0); [exfalso; lia|].
  destruct (Z.ltb_spec c 128).
  { eexists. split; [reflexivity|]. split; [|split; [discriminate|]].
    - repeat constructor; lia.
    - cbn [app utf8_decode]. decide_tests. reflexivity. }
  destruct (Z.ltb_spec c 2048).
  { eexists. split; [reflexivity|]. split; [|split; [discriminate|]].
    - unfold is_byte. repeat (apply Forall_cons; [zdm|]). apply Forall_nil.
    - cbn [app utf8_decode]. unfold is_cont. decide_tests.
      cbn [andb]. f_equal. f_equal. zdm. }
  destruct (Z.ltb_spec c 65536).
  { destruct (Z.leb_spec 55296 c); destruct (Z.ltb_spec c 57344);
      cbn [andb]; try (exfalso; lia).
    - eexists. split; [reflexivity|]. split; [|split; [discriminate|]].
      + unfold is_byte. repeat (apply Forall_cons; [zdm|]). apply Forall_nil.
      + cbn [app utf8_decode]. unfold is_cont.
        replace ((224 + c / 4096 - 224) * 4096
                 + (128 + (c / 64) mod 64 - 128) * 64
                 + (128 + c mod 64 - 128)) with c by zdm.
        decide_tests. reflexivity.
    - eexists. split; [reflexivity|]. split; [|split; [discriminate|]].
      + unfold is_byte. repeat (apply Forall_cons; [zdm|]). apply Forall_nil.
      + cbn [app utf8_decode]. unfold is_cont.
        replace ((224 + c / 4096 - 224) * 4096
                 + (128 + (c / 64) mod 64 - 128) * 64
                 + (128 + c mod 64 - 128)) with c by zdm.
        decide_tests. reflexivity. }
  destruct (Z.ltb_spec c 1114112); [|exfalso; lia].
  eexists. split; [reflexivity|]. split; [|split; [discriminate|]].
  - unfold is_byte. repeat (apply Forall_cons; [zdm|]). apply Forall_nil.
  - cbn [app utf8_decode]. unfold is_cont.
    replace ((240 + c / 262144 - 240) * 262144
             + (128 + (c / 4096) mod 64 - 128) * 4096
             + (128 + (c / 64) mod 64 - 128) * 64
             + (128 + c mod 64 - 128)) with c by zdm.
    decide_tests. reflexivity.
Qed.

(** Well-formed text encodes to bytes that decode to the same text. *)
Lemma utf8_decode_encode (t : str) :
  Forall is_scalar t ->
  exists bs, utf8_encode t = Some bs
             /\ Forall is_byte bs
             /\ (t <> [] -> bs <> [])
             /\ utf8_decode bs = Some t.
Proof.
  induction t as [|c t IH]; intros Ht.
  - exists []. repeat split; auto. 
  - inversion Ht as [|? ? Hc Ht']; subst.
    destruct (IH Ht') as [rest [E [B [_ D]]]].
    destruct (utf8_decode_encode_cp c rest Hc) as [bs [Ec [Bc [Nc Dc]]]].
    exists (bs ++ rest). cbn [utf8_encode]. rewrite Ec, E.
    split; [reflexivity|]. split; [apply Forall_app; auto|]. split.
    + intros _ Hnil. apply app_eq_nil in Hnil. destruct Hnil. contradiction.
    + rewrite Dc, D. reflexivity.
Qed.

(** ASCII text and its encoding are the same list. *)
Lemma utf8_ascii (l : list Z) :
  Forall is_ascii l -> utf8_encode l = Some l /\ utf8_decode l = Some l.
Proof.
  induction l as [|c l IH]; intros Hl; [split; reflexivity|].
  inversion Hl as [|? ? Hc Hl']; subst. unfold is_ascii in Hc.
  destruct (IH Hl') as [E D]. split.
  - cbn [utf8_encode]. rewrite E. unfold utf8_encode_cp.
    decide_tests. reflexivity.
  - cbn [utf8_decode]. decide_tests. rewrite D. reflexivity.
Qed.

(** *** The XOR stream *)

Lemma lxor_byte (a b : Z) : is_byte a -> is_byte b -> is_byte (Z.lxor a b).
Proof.
  unfold is_byte. intros Ha Hb.
  assert (Hn : 0 <= Z.lxor a b) by (apply Z.lxor_nonneg; lia).
  split; [exact Hn|].
  destruct (Z.eq_dec (Z.lxor a b) 0) as [->|Hz]; [lia|].
  change 256 with (2 ^ 8). apply Z.log2_lt_pow2; [lia|].
  pose proof (Z.log2_lxor a b ltac:(lia) ltac:(lia)) as Hl.
  assert (La : Z.log2 a < 8).
  { destruct (Z.eq_dec a 0) as [->|]; [reflexivity|].
    apply Z.log2_lt_pow2; lia. }
  assert (Lb : Z.log2 b < 8).
  { destruct (Z.eq_dec b 0) as [->|]; [reflexivity|].
    apply Z.log2_lt_pow2; lia. }
  lia.
Qed.

Lemma nth_byte (key : bytes) (n : nat) :
  Forall is_byte key -> is_byte (nth n key 0).
Proof.
  intros Hk. destruct (nth_in_or_default n key 0) as [Hin| ->].
  - rewrite Forall_forall in Hk. now apply Hk.
  - unfold is_byte. lia.
Qed.

Lemma xor_from_bytes (key : bytes) (i : nat) (data : bytes) :
  Forall is_byte key -> Forall is_byte data ->
  Forall is_byte (xor_from key i data).
Proof.
  intros Hk Hd. revert i. induction Hd as [|b t Hb Ht IH]; intros i;
    cbn [xor_from]; constructor.
  - apply lxor_byte; [exact Hb | now apply nth_byte].
  - apply IH.
Qed.

(** Masking twice with the same key, from the same position, is the
    identity. *)
Lemma xor_from_involutive (key : bytes) (i : nat) (data : bytes) :
  xor_from key i (xor_from key i data) = data.
Proof.
  revert i. induction data as [|b t IH]; intros i; cbn [xor_from];
    [reflexivity|].
  rewrite IH, Z.lxor_assoc, Z.lxor_nilpotent, Z.lxor_0_r. reflexivity.
Qed.

Lemma xor_stream_nonempty (key data : bytes) :
  data <> [] -> xor_stream key data <> [].
Proof. destruct data; [contradiction | discriminate]. Qed.

(** *** Round trip *)

(** What [encrypt_log] returns on a non-empty text. *)
Lemma encrypt_log_nonempty (self : EncryptionManager) (t : str) (plain : bytes) :
  t <> [] -> Forall is_byte (key self) ->
  utf8_encode t = Some plain -> Forall is_byte plain ->
  encrypt_log self t = Some (b64encode (xor_stream (key self) plain)).
Proof.
  intros Hne Hk E Hp. unfold encrypt_log.
  destruct t as [|c t]; [contradiction|]. rewrite E.
  apply utf8_ascii, b64encode_ascii, xor_from_bytes; assumption.
Qed.



End MaskingProperties.


(** The masked form of the sample text, as the program produces it:
    [uB/tcHKwJB46IHr3DQWA]. *)
Lemma encrypt_log_sample :
  encrypt_log sample_manager sample_text
  = Some [117; 66; 47; 116; 99; 72; 75; 119; 74; 66; 52; 54; 73; 72; 114; 51;
          68; 81; 87; 65]%Z.
Proof. vm_compute. reflexivity. Qed.

Lemma decrypt_log_sample :
  decrypt_log sample_manager
    [117; 66; 47; 116; 99; 72; 75; 119; 74; 66; 52; 54; 73; 72; 114; 51;
     68; 81; 87; 65]%Z
  = sample_text.
Proof. vm_compute. reflexivity. Qed.

(** A wrong key or a damaged text gives the failure message, not an
    exception. *)
Lemma decrypt_log_damaged :
  decrypt_log sample_manager [117; 66; 47]%Z = decrypt_failure.
Proof. vm_compute. reflexivity. Qed.

(** * Further properties *)

(** ** Risk aggregation: penalties, bounds, order *)

Lemma series_std0_nonneg (h : list R) : 0 <= series_std0 h.
Proof. unfold series_std0. apply sqrt_pos. Qed.

Lemma np_sum_below_bounds (tau : R) (h : list R) :
  0 <= np_sum (below tau h) <= INR (length h).
Proof.
  unfold below. induction h as [|x h IH].
  - simpl. lra.
  - cbn [map np_sum fold_right length]. rewrite S_INR.
    fold (np_sum (map (fun y => if Rlt_dec y tau then 1 else 0) h)).
    destruct (Rlt_dec x tau); lra.
Qed.

Lemma frac_below_bounds (tau : R) (h : list R) :
  h <> [] -> 0 <= series_mean (below tau h) <= 1.
Proof.
  intros Hne. unfold series_mean. unfold below at 2 4. rewrite length_map.
  pose proof (INR_length_pos h Hne) as Hn.
  pose proof (np_sum_below_bounds tau h) as [H0 H1].
  split.
  - apply Rle_mult_inv_pos; assumption.
  - apply (Rmult_le_reg_r (INR (length h))); [exact Hn|].
    unfold Rdiv. rewrite Rmult_assoc, Rinv_l by lra. lra.
Qed.

(** Raising either penalty weight never raises the index, and with
    non-negative weights the index never exceeds the mean. *)
Theorem rhi_penalties_monotone :
  forall (h : list R) (lam1 lam2 gam1 gam2 tau : R),
    lam1 <= lam2 -> gam1 <= gam2 ->
    RHI (calculate_rhi_metrics h lam2 gam2 tau)
      <= RHI (calculate_rhi_metrics h lam1 gam1 tau)
    /\ (0 <= lam1 -> 0 <= gam1 ->
        RHI (calculate_rhi_metrics h lam1 gam1 tau)
          <= mean_H (calculate_rhi_metrics h lam1 gam1 tau)).
Proof.
  intros h lam1 lam2 gam1 gam2 tau Hl Hg.
  destruct h as [|x t]; [simpl; split; intros; lra|].
  rewrite !calculate_rhi_metrics_nonempty by discriminate. cbn [RHI mean_H].
  pose proof (series_std0_nonneg (x :: t)) as Hs.
  pose proof (frac_below_bounds tau (x :: t) ltac:(discriminate)) as [Hf _].
  split; [|intros Hl0 Hg0]; nra.
Qed.

Lemma rhi_penalties_monotone_witness :
  RHI (calculate_rhi_metrics [1; 0] 1 2 (1 / 2))
    <= RHI (calculate_rhi_metrics [1; 0] 0 1 (1 / 2)).
Proof.
  refine (proj1 (rhi_penalties_monotone [1; 0] 0 1 1 2 (1 / 2) _ _)); lra.
Defined.

Lemma np_sum_bounds (a b : R) (h : list R) :
  (forall x, In x h -> a <= x <= b) ->
  INR (length h) * a <= np_sum h <= INR (length h) * b.
Proof.
  induction h as [|x h IH]; intros Hh.
  - simpl. lra.
  - cbn [np_sum fold_right length]. rewrite S_INR. fold (np_sum h).
    assert (a <= x <= b) by (apply Hh; now left).
    assert (INR (length h) * a <= np_sum h <= INR (length h) * b)
      by (apply IH; intros y Hy; apply Hh; now right).
    lra.
Qed.

Lemma series_mean_bounds (a b : R) (h : list R) :
  h <> [] -> (forall x, In x h -> a <= x <= b) -> a <= series_mean h <= b.
Proof.
  intros Hne Hh. unfold series_mean.
  pose proof (INR_length_pos h Hne) as Hn.
  pose proof (np_sum_bounds a b h Hh) as [H1 H2].
  split.
  - apply (Rmult_le_reg_r (INR (length h))); [exact Hn|].
    unfold Rdiv. rewrite Rmult_assoc, Rinv_l by lra. lra.
  - apply (Rmult_le_reg_r (INR (length h))); [exact Hn|].
    unfold Rdiv. rewrite Rmult_assoc, Rinv_l by lra. lra.
Qed.









(** ** Scoring: domain scores, monotonicity, scale *)

Lemma dropna_app (l1 l2 : list cell) :
  dropna (l1 ++ l2) = dropna l1 ++ dropna l2.
Proof.
  induction l1 as [|[x|] l1 IH]; simpl; [reflexivity| |exact IH].
  now rewrite IH.
Qed.

Lemma dropna_In (l : list cell) (x : R) : In x (dropna l) <-> In (Some x) l.
Proof.
  induction l as [|[y|] l IH]; simpl.
  - tauto.
  - rewrite IH. split; intros [H|H]; auto; left; congruence.
  - rewrite IH. split; [auto|]. intros [H|H]; [discriminate|exact H].
Qed.

(** A missing element score is left out of the domain average (it does not
    count as 0), the average of scores in [[a, b]] is in [[a, b]], and a
    domain with element columns but no score at all is scored NaN, which the
    scorer then reads as 0. *)
Theorem domain_score_skips_missing :
  forall (r r' : row) (d : domain) (es1 es2 : list cell) (a b : R),
    s_elements r d = es1 ++ es2 ->
    s_elements r' d = es1 ++ None :: es2 ->
    es1 ++ es2 <> [] ->
    (forall x, In (Some x) (es1 ++ es2) -> a <= x <= b) ->
    domain_score r' d = domain_score r d
    /\ (forall x, domain_score r d = Some x -> a <= x <= b)
    /\ (dropna (es1 ++ es2) = [] ->
        domain_score r d = None /\ s_filled r d = 0).
Proof.
  intros r r' d es1 es2 a b E E' Hne Hr.
  assert (D : domain_score r d = mean_skipna (es1 ++ es2)).
  { unfold domain_score. rewrite E.
    destruct (es1 ++ es2); [contradiction|reflexivity]. }
  assert (D' : domain_score r' d = mean_skipna (es1 ++ None :: es2)).
  { unfold domain_score. rewrite E'.
    destruct (es1 ++ None :: es2) eqn:X; [|reflexivity].
    destruct es1; discriminate. }
  split; [|split].
  - rewrite D, D'. unfold mean_skipna. rewrite !dropna_app. reflexivity.
  - intros x Hx. rewrite D in Hx. unfold mean_skipna in Hx.
    destruct (dropna (es1 ++ es2)) as [|y ys] eqn:X; [discriminate|].
    inversion Hx; subst x.
    apply (series_mean_bounds a b (y :: ys)); [discriminate|].
    intros z Hz. apply Hr. apply dropna_In. rewrite X. exact Hz.
  - intros X. unfold s_filled. rewrite D. unfold mean_skipna. rewrite X.
    split; reflexivity.
Qed.

Lemma domain_score_skips_missing_witness :
  domain_score
    {| q_col := fun _ => None; s_col := fun _ => None;
       s_elements := fun _ => [Some 40; None; Some 60];
       g_happiness := None |} health
  = domain_score
      {| q_col := fun _ => None; s_col := fun _ => None;
         s_elements := fun _ => [Some 40; Some 60];
         g_happiness := None |} health.
Proof.
  refine (proj1 (domain_score_skips_missing _ _ health [Some 40] [Some 60]
                   0 100 _ _ _ _)).
  - reflexivity.
  - reflexivity.
  - discriminate.
  - intros x [H|[H|[]]]; inversion H; subst; lra.
Defined.

(** Satisfaction does not decrease when one domain score is raised, the
    weights (non-negative on that domain) and the other scores being the
    same. *)
Theorem satisfaction_monotone :
  forall (r r' : row) (d0 : domain),
    (forall d, q_filled r' d = q_filled r d) ->
    (forall d, d <> d0 -> s_filled r' d = s_filled r d) ->
    0 <= q_filled r d0 ->
    s_filled r d0 <= s_filled r' d0 ->
    satisfaction r <= satisfaction r'.
Proof.
  intros r r' d0 Hq Hs Hq0 Hs0.
  assert (T : forall d, q_filled r d * (s_filled r d / 100)
                        <= q_filled r' d * (s_filled r' d / 100)).
  { intros d. rewrite Hq. destruct (domain_eq_dec d d0) as [->|Hd].
    - nra.
    - rewrite (Hs d Hd). lra. }
  rewrite !satisfaction_expand.
  pose proof (T health). pose proof (T relationships). pose proof (T meaning).
  pose proof (T autonomy). pose proof (T finance). pose proof (T leisure).
  pose proof (T competition). lra.
Qed.

Lemma satisfaction_monotone_witness :
  satisfaction half_row <= satisfaction raised_row.
Proof.
  apply (satisfaction_monotone half_row raised_row health).
  - intros d; destruct d; reflexivity.
  - intros d Hd; destruct d; try reflexivity. contradiction.
  - unfold q_filled; simpl; lra.
  - unfold s_filled, domain_score; simpl; lra.
Defined.

Lemma np_sum_map_mult (c : R) (v : list R) :
  np_sum (map (Rmult c) v) = c * np_sum v.
Proof.
  induction v as [|x v IH]; simpl; [lra|]. rewrite IH. lra.
Qed.

Lemma normalized_scaled (c : R) (v : list R) :
  c <> 0 -> np_sum v <> 0 ->
  map (fun x => x / np_sum (map (Rmult c) v)) (map (Rmult c) v)
  = map (fun x => x / np_sum v) v.
Proof.
  intros Hc Hs. rewrite map_map, np_sum_map_mult.
  apply map_ext. intros x. field. split; assumption.
Qed.



(** ** Scoring: the range of Unity and Harmony *)

Lemma ln_le_mono (x y : R) : 0 < x -> x <= y -> ln x <= ln y.
Proof.
  intros Hx [Hlt| ->]; [|lra]. left. now apply ln_increasing.
Qed.



Lemma ln_2_nonneg : 0 <= ln 2.
Proof. rewrite <- ln_1. apply ln_le_mono; lra. Qed.










(** ** Weight solver: the comparison matrix *)

Lemma Forall_set_nth {A : Type} (P : A -> Prop) (l : list A) (i : nat) (v : A) :
  Forall P l -> P v -> Forall P (set_nth l i v).
Proof.
  intros Hl Hv. revert i. induction Hl as [|x l Hx Hl IH]; intros [|i];
    simpl; constructor; auto.
Qed.

Lemma nth_Forall_length (n : nat) (m : matrix) (i : nat) :
  Forall (fun line => length line = n) m -> (i < length m)%nat ->
  length (nth i m []) = n.
Proof.
  intros H Hi. rewrite Forall_forall in H. apply H. now apply nth_In.
Qed.

(** Reading a cell after one write, in a square matrix. *)
Lemma mat_get_set (n : nat) (m : matrix) (i j a b : nat) (v : R) :
  length m = n -> Forall (fun line => length line = n) m ->
  (i < n)%nat -> (j < n)%nat ->
  mat_get (mat_set m i j v) a b
  = if (a =? i)%nat && (b =? j)%nat then v else mat_get m a b.
Proof.
  intros Hl Hr Hi Hj.
  destruct (Nat.eqb_spec a i) as [->|Na]; cbn [andb].
  - destruct (Nat.eqb_spec b j) as [->|Nb].
    + unfold mat_get, mat_set.
      destruct (nth_error m i) as [line|] eqn:E.
      * rewrite nth_set_nth_same by lia.
        apply nth_set_nth_same.
        rewrite <- (nth_error_nth m i [] E).
        rewrite (nth_Forall_length n) by (assumption || lia). exact Hj.
      * apply nth_error_None in E. lia.
    + apply mat_get_set_other. now right.
  - apply mat_get_set_other. now left.
Qed.

Lemma mat_set_shape (n : nat) (m : matrix) (i j : nat) (v : R) :
  length m = n -> Forall (fun line => length line = n) m ->
  length (mat_set m i j v) = n
  /\ Forall (fun line => length line = n) (mat_set m i j v).
Proof.
  intros Hl Hr. split; [now rewrite mat_set_length|].
  unfold mat_set. destruct (nth_error m i) as [line|] eqn:E; [|exact Hr].
  apply Forall_set_nth; [exact Hr|].
  rewrite set_nth_length. rewrite Forall_forall in Hr. apply Hr.
  eapply nth_error_In. exact E.
Qed.

Lemma index_from_bound (items : list domain) (x : domain) (k i : nat) :
  index_from items x k = Some i -> (k <= i < k + length items)%nat.
Proof.
  revert k. induction items as [|y t IH]; intros k H; simpl in H;
    [discriminate|].
  destruct (index_from t x (S k)) as [i'|] eqn:E.
  - inversion H; subst. apply IH in E. simpl. lia.
  - destruct (domain_eq_dec y x); inversion H; subst. simpl. lia.
Qed.

Lemma item_map_bound (items : list domain) (x : domain) (i : nat) :
  item_map items x = Some i -> (i < length items)%nat.
Proof. intros H. apply index_from_bound in H. lia. Qed.

Lemma np_ones_get (n i j : nat) :
  (i < n)%nat -> (j < n)%nat -> mat_get (np_ones n) i j = 1.
Proof.
  intros Hi Hj. unfold mat_get, np_ones.
  rewrite (nth_indep _ [] (repeat 1 n)) by (rewrite repeat_length; exact Hi).
  rewrite nth_repeat. rewrite (nth_indep _ 0 1) by (rewrite repeat_length; exact Hj).
  apply nth_repeat.
Qed.

Lemma np_ones_comparison_matrix (n : nat) : comparison_matrix n (np_ones n).
Proof.
  unfold comparison_matrix, np_ones. split; [apply repeat_length|]. split.
  - apply Forall_forall. intros line Hl. apply repeat_spec in Hl. subst.
    apply repeat_length.
  - split.
    + intros i j Hi Hj. left. now apply np_ones_get.
    + intros i j Hi Hj _. fold (np_ones n). rewrite !np_ones_get by assumption.
      lra.
Qed.

(** Writing [v] at [(i, j)] and [w] at [(j, i)], with [v * w = 1] and both
    among 1, 3 and 1/3, keeps a comparison matrix well formed. *)
Lemma mat_set_pair_comparison_matrix (n : nat) (m : matrix) (i j : nat)
  (v w : R) :
  comparison_matrix n m -> (i < n)%nat -> (j < n)%nat ->
  (v = 1 \/ v = 3 \/ v = 1 / 3) -> (w = 1 \/ w = 3 \/ w = 1 / 3) ->
  v * w = 1 ->
  comparison_matrix n (mat_set (mat_set m i j v) j i w).
Proof.
  intros [Hl [Hr [Hv Hrec]]] Hi Hj Vv Vw Hvw.
  destruct (mat_set_shape n m i j v Hl Hr) as [Hl1 Hr1].
  destruct (mat_set_shape n (mat_set m i j v) j i w Hl1 Hr1) as [Hl2 Hr2].
  assert (G : forall a b,
             mat_get (mat_set (mat_set m i j v) j i w) a b
             = if (a =? j)%nat && (b =? i)%nat then w
               else if (a =? i)%nat && (b =? j)%nat then v
                    else mat_get m a b).
  { intros a b. rewrite (mat_get_set n) by assumption.
    rewrite (mat_get_set n) by assumption. reflexivity. }
  split; [exact Hl2|]. split; [exact Hr2|]. split.
  - intros a b Ha Hb. rewrite G.
    destruct ((a =? j)%nat && (b =? i)%nat); [exact Vw|].
    destruct ((a =? i)%nat && (b =? j)%nat); [exact Vv|]. now apply Hv.
  - intros a b Ha Hb Hab. rewrite !G.
    repeat match goal with
      | |- context [(?x =? ?y)%nat] => destruct (Nat.eqb_spec x y)
      end; cbn [andb]; subst; try congruence; try nra;
      try (apply Hrec; assumption).
Qed.

Lemma apply_judgment_comparison_matrix (items : list domain) (m m' : matrix)
  (c : judgment) :
  comparison_matrix (length items) m ->
  apply_judgment items m c = Some m' ->
  comparison_matrix (length items) m'.
Proof.
  destruct c as [[item1 item2] winner]. intros Hm H.
  unfold apply_judgment in H.
  destruct (item_map items item1) as [i|] eqn:E1; [|discriminate].
  destruct (item_map items item2) as [j|] eqn:E2; [|discriminate].
  apply item_map_bound in E1. apply item_map_bound in E2.
  destruct (domain_eq_dec winner item1);
    [|destruct (domain_eq_dec winner item2)]; inversion H; subst m'.
  - apply mat_set_pair_comparison_matrix; auto; lra.
  - apply mat_set_pair_comparison_matrix; auto; lra.
  - exact Hm.
Qed.

(** Whatever the judgments, the matrix handed to the eigen-decomposition is
    square of the order of [items], has only the entries 1, 3 and 1/3 (so it
    is positive) and is reciprocal off the diagonal. *)
Theorem build_matrix_well_formed :
  forall (comparisons : list judgment) (items : list domain) (m : matrix),
    build_matrix comparisons items = Some m ->
    comparison_matrix (length items) m.
Proof.
  intros comparisons items m. unfold build_matrix.
  generalize (np_ones_comparison_matrix (length items)).
  generalize (np_ones (length items)) as m0.
  induction comparisons as [|c rest IH]; intros m0 H0 H; simpl in H.
  - inversion H; subst. exact H0.
  - destruct (apply_judgment items m0 c) as [m1|] eqn:E; [|discriminate].
    apply (IH m1); [|exact H].
    eapply apply_judgment_comparison_matrix; eassumption.
Qed.

Lemma build_matrix_well_formed_witness :
  comparison_matrix 7 (np_ones 7).
Proof.
  apply (build_matrix_well_formed [] DOMAINS (np_ones 7)). reflexivity.
Defined.

(** ** Weight solver: judgments, missing items, eigenvector scale *)

Lemma build_matrix_from_app (items : list domain) (m : matrix)
  (l1 l2 : list judgment) :
  build_matrix_from items m (l1 ++ l2)
  = match build_matrix_from items m l1 with
    | Some m1 => build_matrix_from items m1 l2
    | None => None
    end.
Proof.
  revert m. induction l1 as [|c l1 IH]; intros m; simpl; [reflexivity|].
  destruct (apply_judgment items m c); [apply IH|reflexivity].
Qed.

Lemma build_matrix_from_well_formed (items : list domain) (m m' : matrix)
  (l : list judgment) :
  comparison_matrix (length items) m ->
  build_matrix_from items m l = Some m' ->
  comparison_matrix (length items) m'.
Proof.
  revert m. induction l as [|c l IH]; intros m Hm H; simpl in H.
  - inversion H; subst. exact Hm.
  - destruct (apply_judgment items m c) as [m1|] eqn:E; [|discriminate].
    apply (IH m1); [|exact H].
    eapply apply_judgment_comparison_matrix; eassumption.
Qed.

Lemma unjudged_sym (l : list judgment) (a b : domain) :
  unjudged l a b -> unjudged l b a.
Proof. intros H c Hc. destruct (H c Hc). split; assumption. Qed.

Lemma judged_pair_entries (pre post : list judgment) (a b winner : domain)
  (m : matrix) :
  a <> b ->
  unjudged post a b ->
  build_matrix (pre ++ ((a, b), winner) :: post) DOMAINS = Some m ->
  (winner = a ->
   entry DOMAINS m a b = Some 3 /\ entry DOMAINS m b a = Some (1 / 3))
  /\ (winner = b ->
      entry DOMAINS m a b = Some (1 / 3) /\ entry DOMAINS m b a = Some 3).
Proof.
  intros Hab Hu H.
  unfold build_matrix in H. rewrite build_matrix_from_app in H.
  destruct (build_matrix_from DOMAINS (np_ones (length DOMAINS)) pre)
    as [m1|] eqn:E1; [|discriminate].
  assert (W1 : comparison_matrix 7 m1).
  { apply (build_matrix_from_well_formed DOMAINS
             (np_ones (length DOMAINS)) m1 pre);
      [apply np_ones_comparison_matrix | exact E1]. }
  destruct W1 as [Hl [Hr _]].
  cbn [build_matrix_from] in H.
  destruct (apply_judgment DOMAINS m1 (a, b, winner)) as [m2|] eqn:E2;
    [|discriminate].
  rewrite (build_matrix_from_unjudged post m2 m a b H Hu).
  rewrite (build_matrix_from_unjudged post m2 m b a H (unjudged_sym _ _ _ Hu)).
  unfold apply_judgment in E2. unfold entry.
  destruct (item_map DOMAINS a) as [i|] eqn:Ea; [|discriminate].
  destruct (item_map DOMAINS b) as [j|] eqn:Eb; [|discriminate].
  assert (Hi : (i < 7)%nat) by (apply item_map_bound in Ea; exact Ea).
  assert (Hj : (j < 7)%nat) by (apply item_map_bound in Eb; exact Eb).
  assert (Hij : i <> j).
  { intros ->. apply Hab. apply item_map_DOMAINS_inj. congruence. }
  destruct (mat_set_shape 7 m1 i j 3 Hl Hr) as [Hl3 Hr3].
  destruct (mat_set_shape 7 m1 i j (1 / 3) Hl Hr) as [Hl4 Hr4].
  split; intros ->.
  - destruct (domain_eq_dec a a) as [_|N]; [|contradiction].
    inversion E2; subst m2.
    rewrite !(mat_get_set 7) by assumption.
    rewrite !Nat.eqb_refl.
    destruct (Nat.eqb_spec i j); [contradiction|].
    destruct (Nat.eqb_spec j i); [congruence|]. cbn [andb].
    split; reflexivity.
  - destruct (domain_eq_dec b a) as [E|_]; [congruence|].
    destruct (domain_eq_dec b b) as [_|N]; [|contradiction].
    inversion E2; subst m2.
    rewrite !(mat_get_set 7) by assumption.
    rewrite !Nat.eqb_refl.
    destruct (Nat.eqb_spec i j); [contradiction|].
    destruct (Nat.eqb_spec j i); [congruence|]. cbn [andb].
    split; reflexivity.
Qed.

(** The last judgment on a pair decides its two entries: 3 for the winner
    over the loser and 1/3 the other way round. *)
Theorem build_matrix_judged_pair :
  forall (pre post : list judgment) (a b winner : domain) (m : matrix),
    a <> b ->
    unjudged post a b ->
    build_matrix (pre ++ ((a, b), winner) :: post) DOMAINS = Some m ->
    (winner = a ->
     entry DOMAINS m a b = Some 3 /\ entry DOMAINS m b a = Some (1 / 3))
    /\ (winner = b ->
        entry DOMAINS m a b = Some (1 / 3) /\ entry DOMAINS m b a = Some 3).
Proof. intros. now apply (judged_pair_entries pre post). Qed.

Lemma build_matrix_judged_pair_witness :
  entry DOMAINS
    (mat_set (mat_set (np_ones 7) 0 1 3) 1 0 (1 / 3)) health relationships
  = Some 3
  /\ entry DOMAINS
       (mat_set (mat_set (np_ones 7) 0 1 3) 1 0 (1 / 3)) relationships health
     = Some (1 / 3).
Proof.
  refine (proj1 (build_matrix_judged_pair [] [] health relationships health
                   _ _ _ _) eq_refl).
  - discriminate.
  - intros c [].
  - reflexivity.
Defined.

Lemma index_from_None (items : list domain) (x : domain) (k : nat) :
  ~ In x items -> index_from items x k = None.
Proof.
  revert k. induction items as [|y t IH]; intros k H; simpl; [reflexivity|].
  rewrite IH by (intros Hin; apply H; now right).
  destruct (domain_eq_dec y x) as [->|_]; [|reflexivity].
  exfalso. apply H. now left.
Qed.

(** A judgment about a domain that is not among [items] makes the whole
    call fail (the [KeyError] of the lookup), whatever the other judgments
    and the eigen-decomposition are. *)
Theorem calculate_ahp_weights_missing_item :
  forall (eig : matrix -> list R) (comparisons : list judgment)
         (items : list domain) (a b winner : domain),
    In ((a, b), winner) comparisons ->
    ~ In a items \/ ~ In b items ->
    calculate_ahp_weights eig comparisons items = None.
Proof.
  intros eig comparisons items a b winner Hin Hmiss.
  unfold calculate_ahp_weights, build_matrix.
  generalize (np_ones (length items)) as m.
  induction comparisons as [|c rest IH]; intros m; [contradiction|].
  cbn [build_matrix_from].
  destruct Hin as [->|Hin].
  - unfold apply_judgment, item_map.
    destruct Hmiss as [Ha|Hb].
    + rewrite (index_from_None items a 0 Ha). reflexivity.
    + rewrite (index_from_None items b 0 Hb).
      destruct (index_from items a 0); reflexivity.
  - destruct (apply_judgment items m c) as [m1|]; [|reflexivity].
    apply (IH Hin).
Qed.

Lemma calculate_ahp_weights_missing_item_witness :
  calculate_ahp_weights ones_eigenvector [((health, finance), health)]
    [health; relationships] = None.
Proof.
  apply (calculate_ahp_weights_missing_item ones_eigenvector
           [((health, finance), health)] [health; relationships]
           health finance health).
  - now left.
  - right. intros [H|[H|[]]]; discriminate.
Defined.

(** The result does not depend on the scale or the sign of the eigenvector:
    multiplying it by any nonzero factor gives the same weights. *)
Theorem calculate_ahp_weights_scale_free :
  forall (eig eig' : matrix -> list R) (c : R)
         (comparisons : list judgment) (items : list domain),
    c <> 0 ->
    (forall m, eig' m = map (Rmult c) (eig m)) ->
    calculate_ahp_weights eig' comparisons items
    = calculate_ahp_weights eig comparisons items.
Proof.
  intros eig eig' c comparisons items Hc He. unfold calculate_ahp_weights.
  destruct (build_matrix comparisons items) as [m|]; [|reflexivity].
  rewrite He. unfold ahp_int_weights, normalize.
  destruct (Req_dec_T (np_sum (eig m)) 0) as [Z|N].
  - rewrite np_sum_map_mult, Z.
    destruct (Req_dec_T (c * 0) 0) as [_|N]; [reflexivity|exfalso; lra].
  - destruct (Req_dec_T (np_sum (map (Rmult c) (eig m))) 0) as [Z|_].
    { exfalso. rewrite np_sum_map_mult in Z.
      apply Rmult_integral in Z. tauto. }
    rewrite (normalized_scaled c (eig m) Hc N). reflexivity.
Qed.

Lemma calculate_ahp_weights_scale_free_witness :
  calculate_ahp_weights (fun m => map (Rmult (-2)) (ones_eigenvector m))
    [] DOMAINS
  = calculate_ahp_weights ones_eigenvector [] DOMAINS.
Proof.
  apply (calculate_ahp_weights_scale_free ones_eigenvector _ (-2)).
  - lra.
  - reflexivity.
Defined.

(** ** Weight solver: the range of the weights *)

Lemma floorZ_spec (x : R) : IZR (floorZ x) <= x < IZR (floorZ x) + 1.
Proof.
  unfold floorZ. rewrite minus_IZR. destruct (archimed x) as [H1 H2]. lra.
Qed.

(** [np_round] moves a number by at most one half. *)
Lemma np_round_error (x : R) :
  x - 1 / 2 <= IZR (np_round x) <= x + 1 / 2.
Proof.
  unfold np_round. pose proof (floorZ_spec x) as [Hl Hu].
  destruct (Rlt_dec (x - IZR (floorZ x)) (1 / 2)) as [H|H]; [lra|].
  destruct (Rlt_dec (1 / 2) (x - IZR (floorZ x))) as [H'|H'].
  - rewrite plus_IZR. lra.
  - destruct (Z.even (floorZ x)); [lra|]. rewrite plus_IZR. lra.
Qed.

Lemma np_round_percent (x : R) :
  0 <= x <= 100 -> (0 <= np_round x <= 100)%Z.
Proof.
  intros [H0 H1]. pose proof (np_round_error x) as [Hl Hu]. split.
  - assert (IZR (-1) < IZR (np_round x)) by lra.
    apply lt_IZR in H. lia.
  - assert (IZR (np_round x) < IZR 101) by lra.
    apply lt_IZR in H. lia.
Qed.

Lemma sumZ_round_error (ws : list R) :
  100 * np_sum ws - INR (length ws) / 2
  <= IZR (sumZ (map (fun x => np_round (x * 100)) ws))
  <= 100 * np_sum ws + INR (length ws) / 2.
Proof.
  induction ws as [|x ws IH].
  - simpl. lra.
  - cbn [map sumZ fold_right np_sum length]. rewrite S_INR.
    fold (sumZ (map (fun y => np_round (y * 100)) ws)). fold (np_sum ws).
    rewrite plus_IZR. pose proof (np_round_error (x * 100)). lra.
Qed.

Lemma argmax_from_max (l : list Z) (i best_i : nat) (best : Z)
  (pre : list Z) :
  length pre = i -> nth best_i pre 0%Z = best -> (best_i < i)%nat ->
  (forall x, In x pre -> (x <= best)%Z) ->
  forall x, In x (pre ++ l) ->
            (x <= nth (argmax_from l i best_i best) (pre ++ l) 0)%Z.
Proof.
  revert i best_i best pre.
  induction l as [|y l IH]; intros i bi best pre Hlen Hb Hlt Hmax x Hx.
  - simpl. rewrite app_nil_r in *. rewrite Hb. now apply Hmax.
  - cbn [argmax_from].
    replace (pre ++ y :: l) with ((pre ++ [y]) ++ l) in *
      by (rewrite <- app_assoc; reflexivity).
    destruct (Z.ltb_spec best y) as [Hby|Hby].
    + apply (IH (S i) i y (pre ++ [y])); try assumption.
      * rewrite length_app. simpl. lia.
      * rewrite app_nth2 by lia. rewrite Hlen, Nat.sub_diag. reflexivity.
      * lia.
      * intros z Hz. apply in_app_or in Hz. destruct Hz as [Hz|[<-|[]]];
          [apply Hmax in Hz; lia | lia].
    + apply (IH (S i) bi best (pre ++ [y])); try assumption.
      * rewrite length_app. simpl. lia.
      * rewrite app_nth1 by lia. exact Hb.
      * lia.
      * intros z Hz. apply in_app_or in Hz. destruct Hz as [Hz|[<-|[]]];
          [now apply Hmax | lia].
Qed.

(** [np_argmax] points at a largest component. *)
Lemma np_argmax_max (l : list Z) (k : nat) :
  np_argmax l = Some k -> forall x, In x l -> (x <= nth k l 0)%Z.
Proof.
  destruct l as [|y l]; [discriminate|]. intros H x Hx.
  inversion H; subst k.
  apply (argmax_from_max l 1 0 y [y]); auto.
  intros z [<-|[]]. lia.
Qed.

Lemma sumZ_le_max (l : list Z) (M : Z) :
  (forall x, In x l -> (x <= M)%Z) -> (sumZ l <= Z.of_nat (length l) * M)%Z.
Proof.
  induction l as [|x l IH]; intros H; [simpl; lia|].
  cbn [sumZ fold_right length]. fold (sumZ l).
  assert (x <= M)%Z by (apply H; now left).
  assert (sumZ l <= Z.of_nat (length l) * M)%Z
    by (apply IH; intros y Hy; apply H; now right).
  lia.
Qed.

Lemma sumZ_nonneg (l : list Z) :
  (forall x, In x l -> (0 <= x)%Z) -> (0 <= sumZ l)%Z.
Proof.
  induction l as [|x l IH]; intros H; [simpl; lia|].
  cbn [sumZ fold_right]. fold (sumZ l).
  assert (0 <= x)%Z by (apply H; now left).
  assert (0 <= sumZ l)%Z by (apply IH; intros y Hy; apply H; now right).
  lia.
Qed.

Lemma nth_le_sumZ (l : list Z) (k : nat) :
  (forall x, In x l -> (0 <= x)%Z) -> (nth k l 0 <= sumZ l)%Z.
Proof.
  revert k. induction l as [|x l IH]; intros k H.
  - destruct k; simpl; lia.
  - cbn [sumZ fold_right]. fold (sumZ l).
    assert (0 <= x)%Z by (apply H; now left).
    assert (Hl : forall y, In y l -> (0 <= y)%Z)
      by (intros y Hy; apply H; now right).
    destruct k as [|k]; simpl.
    + pose proof (sumZ_nonneg l Hl). lia.
    + specialize (IH k Hl). lia.
Qed.

Lemma In_add_at (l : list Z) (k : nat) (d y : Z) :
  In y (add_at l k d) -> In y l \/ y = (nth k l 0 + d)%Z.
Proof.
  revert k. induction l as [|x l IH]; intros k H; [contradiction|].
  destruct k as [|k]; simpl in H.
  - destruct H as [<-|H]; [right; reflexivity | left; now right].
  - destruct H as [<-|H]; [left; now left|].
    destruct (IH k H) as [Hin| ->]; [left; now right | right; reflexivity].
Qed.

(** Patching seven percentages whose sum is within 3 of 100 keeps every
    component between 0 and 100. *)
Lemma patched_percentages (l : list Z) (k : nat) :
  length l = 7%nat ->
  (forall x, In x l -> (0 <= x <= 100)%Z) ->
  (97 <= sumZ l <= 103)%Z ->
  np_argmax l = Some k ->
  forall y, In y (add_at l k (100 - sumZ l)) -> (0 <= y <= 100)%Z.
Proof.
  intros Hlen Hr Hs Hk y Hy.
  destruct (In_add_at l k _ y Hy) as [Hin| ->]; [now apply Hr|].
  pose proof (np_argmax_max l k Hk) as Hmax.
  pose proof (sumZ_le_max l (nth k l 0%Z) Hmax) as H1. rewrite Hlen in H1.
  pose proof (nth_le_sumZ l k (fun x Hx => proj1 (Hr x Hx))) as H2.
  lia.
Qed.

(** When the components of the eigenvector all have the same sign, as those
    of the principal eigenvector of a positive matrix do, the seven weights
    returned are percentages: each lies between 0 and 100. *)
Theorem ahp_weights_are_percentages :
  forall (eig : matrix -> list R) (comparisons : list judgment),
    (forall m, build_matrix comparisons DOMAINS = Some m ->
               length (eig m) = length m
               /\ np_sum (eig m) <> 0
               /\ ((forall x, In x (eig m) -> 0 <= x)
                   \/ (forall x, In x (eig m) -> x <= 0))) ->
    exists w, calculate_ahp_weights eig comparisons DOMAINS = Some w
              /\ forall y, In y w -> (0 <= y <= 100)%Z.
Proof.
  intros eig comparisons Heig. unfold calculate_ahp_weights.
  destruct (build_matrix_DOMAINS comparisons) as [m [E L]]. rewrite E.
  destruct (Heig m E) as [Hlen [Hsum Hsign]]. rewrite L in Hlen.
  set (v := eig m) in *.
  unfold ahp_int_weights, normalize.
  destruct (Req_dec_T (np_sum v) 0) as [Z|_]; [contradiction|].
  set (w := map (fun x => x / np_sum v) v).
  assert (Hw : forall y, In y w -> 0 <= y).
  { intros y Hy. apply in_map_iff in Hy. destruct Hy as [x [<- Hx]].
    destruct Hsign as [Hp|Hn].
    - assert (0 < np_sum v) by (pose proof (np_sum_nonneg v Hp); lra).
      apply Rle_mult_inv_pos; [now apply Hp|assumption].
    - assert (Hneg : 0 <= np_sum (map Ropp v)).
      { apply np_sum_nonneg. intros z Hz. apply in_map_iff in Hz.
        destruct Hz as [t [<- Ht]]. apply Hn in Ht. lra. }
      assert (Eo : np_sum (map Ropp v) = - np_sum v).
      { clear. induction v as [|a v IH]; simpl; [lra|]. rewrite IH. lra. }
      assert (np_sum v < 0) by lra.
      replace (x / np_sum v) with ((- x) / (- np_sum v)) by (field; lra).
      apply Rle_mult_inv_pos; [apply Hn in Hx; lra | lra]. }
  assert (Sw : np_sum w = 1)
    by (unfold w; rewrite np_sum_map_div; field; assumption).
  assert (Cw : map clip0 w = w).
  { rewrite <- (map_id w) at 2. apply map_ext_in. intros y Hy.
    apply clip0_nonneg. now apply Hw. }
  rewrite Cw, Sw.
  destruct (Req_dec_T 1 0) as [Z|_]; [exfalso; lra|].
  set (r := map (fun x => np_round (x * 100)) w).
  assert (Lr : length r = 7%nat)
    by (unfold r, w; rewrite !length_map; exact Hlen).
  assert (Hw1 : forall y, In y w -> y <= 1).
  { intros y Hy. destruct (in_split y w Hy) as [w1 [w2 Ew]].
    assert (0 <= np_sum w1)
      by (apply np_sum_nonneg; intros z Hz; apply Hw; rewrite Ew;
          apply in_or_app; now left).
    assert (0 <= np_sum w2)
      by (apply np_sum_nonneg; intros z Hz; apply Hw; rewrite Ew;
          apply in_or_app; right; now right).
    assert (Es : np_sum w = np_sum w1 + (y + np_sum w2)).
    { rewrite Ew. clear. induction w1 as [|a w1 IH]; simpl; [lra|].
      rewrite IH. lra. }
    lra. }
  assert (Rr : forall y, In y r -> (0 <= y <= 100)%Z).
  { intros y Hy. apply in_map_iff in Hy. destruct Hy as [x [<- Hx]].
    apply np_round_percent. pose proof (Hw x Hx). pose proof (Hw1 x Hx).
    lra. }
  assert (Sr : (97 <= sumZ r <= 103)%Z).
  { pose proof (sumZ_round_error w) as [B1 B2]. fold r in B1, B2.
    assert (Lw : length w = 7%nat) by (unfold w; rewrite length_map; exact Hlen).
    rewrite Lw, Sw in B1, B2. simpl in B1, B2. split.
    - assert (IZR 96 < IZR (sumZ r)) by lra. apply lt_IZR in H. lia.
    - assert (IZR (sumZ r) < IZR 104) by lra. apply lt_IZR in H. lia. }
  destruct (100 - sumZ r =? 0)%Z eqn:Hd.
  - exists r. split; [reflexivity|exact Rr].
  - destruct (np_argmax_bound r) as [k [Ek Hk]].
    { intros Er. rewrite Er in Lr. discriminate. }
    rewrite Ek. eexists. split; [reflexivity|].
    now apply patched_percentages.
Qed.

Lemma ahp_weights_are_percentages_witness :
  exists w, calculate_ahp_weights ones_eigenvector [] DOMAINS = Some w
            /\ forall y, In y w -> (0 <= y <= 100)%Z.
Proof.
  apply (ahp_weights_are_percentages ones_eigenvector []).
  intros m E. rewrite build_matrix_empty in E. inversion E; subst m.
  split; [reflexivity|]. split.
  - unfold ones_eigenvector. simpl. lra.
  - left. unfold ones_eigenvector. simpl.
    intros x Hx. repeat (destruct Hx as [<-|Hx]; [lra|]). contradiction.
Defined.

(** ** Discrepancy analysis: any threshold, missing cells *)



(** ** Masking: format, key stream, the research tool *)

Section MaskingFormat.
Local Open Scope Z_scope.

Ltac zdm' := Z.div_mod_to_equations; lia.

Lemma b64_char_text (v : Z) : 0 <= v < 64 -> is_b64_text (b64_char v).
Proof.
  intros Hv. right. rewrite (b64_index_char v Hv). discriminate.
Qed.

Lemma b64encode_text (bs : bytes) :
  Forall is_byte bs -> Forall is_b64_text (b64encode bs).
Proof.
  assert (Hpad : is_b64_text b64_pad) by (now left).
  induction bs as [|a|a b|a b c l IH] using list_ind3; intros Hb.
  - constructor.
  - inversion Hb as [|? ? Ha _]; subst. unfold is_byte in Ha.
    cbn [b64encode].
    repeat (apply Forall_cons;
            [first [exact Hpad | apply b64_char_text; zdm']|]).
    apply Forall_nil.
  - inversion Hb as [|? ? Ha Hb']; subst.
    inversion Hb' as [|? ? Hb0 _]; subst. unfold is_byte in Ha, Hb0.
    cbn [b64encode].
    repeat (apply Forall_cons;
            [first [exact Hpad | apply b64_char_text; zdm']|]).
    apply Forall_nil.
  - inversion Hb as [|? ? Ha Hb1]; subst.
    inversion Hb1 as [|? ? Hb0 Hb2]; subst.
    inversion Hb2 as [|? ? Hc Hl]; subst. unfold is_byte in Ha, Hb0, Hc.
    cbn [b64encode].
    repeat (apply Forall_cons; [apply b64_char_text; zdm'|]). apply IH, Hl.
Qed.

Lemma b64encode_length (bs : bytes) :
  length (b64encode bs) = (4 * ((length bs + 2) / 3))%nat.
Proof.
  induction bs as [|a|a b|a b c l IH] using list_ind3; try reflexivity.
  cbn [b64encode length]. rewrite IH.
  replace (S (S (S (length l))) + 2)%nat with (length l + 2 + 1 * 3)%nat
    by lia.
  rewrite Nat.div_add by lia. lia.
Qed.

Lemma some_inj {A : Type} (a b : A) : Some a = Some b -> a = b.
Proof. congruence. Qed.

Lemma utf8_encode_cp_bytes (c : Z) (bs : bytes) :
  utf8_encode_cp c = Some bs -> Forall is_byte bs.
Proof.
  unfold utf8_encode_cp, is_byte.
  destruct (Z.ltb_spec c 0); [discriminate|].
  destruct (Z.ltb_spec c 128).
  { intros E; apply some_inj in E; subst bs. repeat constructor; lia. }
  destruct (Z.ltb_spec c 2048).
  { intros E; apply some_inj in E; subst bs.
    repeat (apply Forall_cons; [zdm'|]). apply Forall_nil. }
  destruct (Z.ltb_spec c 65536).
  { destruct ((55296 <=? c) && (c <? 57344)); [discriminate|].
    intros E; apply some_inj in E; subst bs.
    repeat (apply Forall_cons; [zdm'|]). apply Forall_nil. }
  destruct (Z.ltb_spec c 1114112); [|discriminate].
  intros E; apply some_inj in E; subst bs.
  repeat (apply Forall_cons; [zdm'|]). apply Forall_nil.
Qed.

(** Whatever [str.encode] returns is a sequence of bytes. *)
Lemma utf8_encode_bytes (t : str) (bs : bytes) :
  utf8_encode t = Some bs -> Forall is_byte bs.
Proof.
  revert bs. induction t as [|c t IH]; intros bs E; cbn [utf8_encode] in E.
  - inversion E. constructor.
  - destruct (utf8_encode_cp c) as [b1|] eqn:E1; [|discriminate].
    destruct (utf8_encode t) as [b2|] eqn:E2; [|discriminate].
    inversion E; subst. apply Forall_app. split.
    + now apply utf8_encode_cp_bytes with c.
    + now apply IH.
Qed.

Lemma utf8_encode_nonempty (t : str) (bs : bytes) :
  utf8_encode t = Some bs -> t <> [] -> bs <> [].
Proof.
  destruct t as [|c t]; [contradiction|]. intros E _.
  cbn [utf8_encode] in E.
  destruct (utf8_encode_cp c) as [b1|] eqn:E1; [|discriminate].
  destruct (utf8_encode t) as [b2|]; [|discriminate].
  inversion E; subst. intros Hnil. apply app_eq_nil in Hnil.
  destruct Hnil as [-> _]. unfold utf8_encode_cp in E1.
  destruct (c <? 0); [discriminate|].
  destruct (c <? 128); [discriminate|].
  destruct (c <? 2048); [discriminate|].
  destruct (c <? 65536);
    [destruct ((55296 <=? c) && (c <? 57344)); discriminate|].
  destruct (c <? 1114112); discriminate.
Qed.

(** What [encrypt_log] returns for a text that can be encoded. *)
Lemma encrypt_log_value (self : EncryptionManager) (t : str) (plain : bytes) :
  Forall is_byte (key self) -> utf8_encode t = Some plain ->
  encrypt_log self t = Some (b64encode (xor_stream (key self) plain)).
Proof.
  intros Hk E. destruct t as [|c t].
  - inversion E. reflexivity.
  - apply encrypt_log_nonempty; try assumption; [discriminate|].
    now apply utf8_encode_bytes with (c :: t).
Qed.

(** The masked text is plain base64: only characters of the alphabet and
    the padding, four for every three bytes of the encoded text (rounded
    up). *)
Theorem encrypt_log_is_base64 :
  forall (self : EncryptionManager) (t : str) (plain : bytes),
    Forall is_byte (key self) ->
    utf8_encode t = Some plain ->
    exists masked,
      encrypt_log self t = Some masked
      /\ Forall is_b64_text masked
      /\ length masked = (4 * ((length plain + 2) / 3))%nat.
Proof.
  intros self t plain Hk E.
  exists (b64encode (xor_stream (key self) plain)).
  split; [now apply encrypt_log_value|]. split.
  - apply b64encode_text. apply xor_from_bytes; [exact Hk|].
    now apply utf8_encode_bytes with t.
  - rewrite b64encode_length. unfold xor_stream.
    assert (L : forall k i d, length (xor_from k i d) = length d).
    { intros k i d. revert i. induction d as [|b d IH]; intros i;
        cbn [xor_from length]; [reflexivity|]. now rewrite IH. }
    rewrite L. reflexivity.
Qed.

Lemma encrypt_log_is_base64_witness :
  exists masked,
    encrypt_log sample_manager sample_text = Some masked
    /\ Forall is_b64_text masked
    /\ length masked = (4 * ((length sample_plain + 2) / 3))%nat.
Proof.
  apply encrypt_log_is_base64.
  - unfold sample_manager, sample_digest, is_byte. cbn [key].
    repeat (apply Forall_cons; [lia|]). apply Forall_nil.
  - reflexivity.
Defined.

Lemma nth_xor_from (k : bytes) (i j : nat) (data : bytes) :
  (j < length data)%nat ->
  nth j (xor_from k i data) 0
  = Z.lxor (nth j data 0) (nth ((i + j) mod length k) k 0).
Proof.
  revert i j. induction data as [|b data IH]; intros i j Hj;
    [simpl in Hj; lia|].
  destruct j as [|j]; cbn [xor_from nth].
  - rewrite Nat.add_0_r. reflexivity.
  - rewrite IH by (simpl in Hj; lia).
    replace (S i + j)%nat with (i + S j)%nat by lia. reflexivity.
Qed.

(** The mask gives no protection against a reader who knows the text: each
    byte of the text combined with the byte stored at the same place is the
    key byte used there. *)
Theorem masked_text_reveals_key :
  forall (self : EncryptionManager) (t : str) (plain : bytes),
    Forall is_byte (key self) ->
    utf8_encode t = Some plain ->
    exists masked stored,
      encrypt_log self t = Some masked
      /\ utf8_encode masked = Some masked
      /\ b64decode masked = Some stored
      /\ forall i, (i < length plain)%nat ->
           Z.lxor (nth i plain 0) (nth i stored 0)
           = nth (i mod length (key self)) (key self) 0.
Proof.
  intros self t plain Hk E.
  assert (Hp : Forall is_byte plain) by now apply utf8_encode_bytes with t.
  assert (Hx : Forall is_byte (xor_stream (key self) plain))
    by (apply xor_from_bytes; assumption).
  exists (b64encode (xor_stream (key self) plain)),
         (xor_stream (key self) plain).
  split; [now apply encrypt_log_value|]. split.
  - apply utf8_ascii. now apply b64encode_ascii.
  - split; [now apply b64decode_b64encode|].
    intros i Hi. unfold xor_stream. rewrite nth_xor_from by exact Hi.
    rewrite <- Z.lxor_assoc, Z.lxor_nilpotent, Z.lxor_0_l. reflexivity.
Qed.

Lemma masked_text_reveals_key_witness :
  exists masked stored,
    encrypt_log sample_manager sample_text = Some masked
    /\ utf8_encode masked = Some masked
    /\ b64decode masked = Some stored
    /\ forall i, (i < length sample_plain)%nat ->
         Z.lxor (nth i sample_plain 0) (nth i stored 0)
         = nth (i mod length (key sample_manager)) (key sample_manager) 0.
Proof.
  apply masked_text_reveals_key.
  - unfold sample_manager, sample_digest, is_byte. cbn [key].
    repeat (apply Forall_cons; [lia|]). apply Forall_nil.
  - reflexivity.
Defined.

(** The research tool reads what the application wrote: its [decrypt_log]
    turns the result of [encrypt_log] back into the text, for the same
    key. *)
Theorem research_decrypt_log_encrypt_log :
  forall (self : EncryptionManager) (t : str),
    Forall is_byte (key self) -> Forall is_scalar t ->
    exists masked, encrypt_log self t = Some masked
                   /\ research_decrypt_log self masked = t.
Proof.
  intros self t Hk Ht. destruct t as [|c t].
  { exists []. split; reflexivity. }
  destruct (utf8_decode_encode (c :: t) Ht) as [plain [E [Hp [Hne D]]]].
  specialize (Hne ltac:(discriminate)).
  exists (b64encode (xor_stream (key self) plain)).
  split; [apply encrypt_log_nonempty; auto; discriminate|].
  assert (Hx : Forall is_byte (xor_stream (key self) plain))
    by (apply xor_from_bytes; assumption).
  unfold research_decrypt_log.
  destruct (b64encode (xor_stream (key self) plain)) eqn:Eb.
  { exfalso. apply (b64encode_nonempty (xor_stream (key self) plain));
      [now apply xor_stream_nonempty | exact Eb]. }
  rewrite <- Eb.
  rewrite (proj1 (utf8_ascii _ (b64encode_ascii _ Hx))).
  rewrite (b64decode_b64encode _ Hx).
  unfold xor_stream. rewrite xor_from_involutive, D. reflexivity.
Qed.

Lemma research_decrypt_log_encrypt_log_witness :
  exists masked, encrypt_log sample_manager sample_text = Some masked
                 /\ research_decrypt_log sample_manager masked = sample_text.
Proof.
  apply research_decrypt_log_encrypt_log.
  - unfold sample_manager, sample_digest, is_byte. cbn [key].
    repeat (apply Forall_cons; [lia|]). apply Forall_nil.
  - unfold sample_text, is_scalar.
    repeat (apply Forall_cons; [lia|]). apply Forall_nil.
Defined.

(** The two [decrypt_log] differ only in the text they return on failure:
    on every input they return the same text, or each its own failure
    text. *)
Theorem decrypt_log_same_in_both_files :
  forall (self : EncryptionManager) (masked : str),
    research_decrypt_log self masked = decrypt_log self masked
    \/ (decrypt_log self masked = decrypt_failure
        /\ research_decrypt_log self masked = research_failure).
Proof.
  intros self masked. unfold research_decrypt_log, decrypt_log.
  destruct masked as [|c l]; [left; reflexivity|].
  destruct (utf8_encode (c :: l)) as [raw|]; [|right; split; reflexivity].
  destruct (b64decode raw) as [enc|]; [|right; split; reflexivity].
  destruct (utf8_decode (xor_stream (key self) enc));
    [left; reflexivity | right; split; reflexivity].
Qed.

End MaskingFormat.

(** ** The record store *)

Section StoreProperties.
Local Open Scope Z_scope.

Lemma str_eqb_eq (a b : str) : str_eqb a b = true <-> a = b.
Proof.
  unfold str_eqb. destruct (list_eq_dec Z.eq_dec a b); split; auto;
    discriminate.
Qed.

Lemma same_key_spec (u : str) (d : Z) (r : log_record) :
  same_key u d r = true <-> record_key r = (u, d).
Proof.
  unfold same_key, record_key. rewrite andb_true_iff, str_eqb_eq, Z.eqb_eq.
  split; [intros [-> ->]; reflexivity | intros E; inversion E; auto].
Qed.

Lemma insert_record_perm (r : log_record) (l : list log_record) :
  Permutation (insert_record r l) (r :: l).
Proof.
  induction l as [|x t IH]; simpl; [reflexivity|].
  destruct (record_leb r x); [reflexivity|].
  rewrite IH. apply perm_swap.
Qed.

(** Sorting only reorders the rows. *)
Lemma sort_values_perm (l : list log_record) : Permutation (sort_values l) l.
Proof.
  induction l as [|x t IH]; simpl; [reflexivity|].
  rewrite insert_record_perm. now constructor.
Qed.

(** Filtering commutes with reordering. *)
Lemma filter_perm {A : Type} (keep : A -> bool) (u v : list A)
  (P : Permutation u v) : Permutation (filter keep u) (filter keep v).
Proof.
  induction P as [|x u v P IH|x y u|u v w P1 IH1 P2 IH2]; simpl.
  - reflexivity.
  - destruct (keep x); [now constructor | assumption].
  - destruct (keep y), (keep x); try reflexivity. apply perm_swap.
  - etransitivity; eassumption.
Qed.

Lemma str_compare_refl (a : str) : str_compare a a = Eq.
Proof.
  induction a as [|x a IH]; simpl; [reflexivity|].
  rewrite Z.compare_refl. exact IH.
Qed.

Lemma str_compare_antisym (a b : str) :
  str_compare b a = CompOpp (str_compare a b).
Proof.
  revert b. induction a as [|x a IH]; intros [|y b]; simpl; try reflexivity.
  rewrite (Z.compare_antisym x y).
  destruct (x ?= y); simpl; [apply IH | reflexivity | reflexivity].
Qed.

(** The order is total. *)
Lemma record_leb_total (r1 r2 : log_record) :
  record_leb r1 r2 = false -> record_leb r2 r1 = true.
Proof.
  unfold record_leb.
  rewrite (str_compare_antisym (rec_username r1) (rec_username r2)).
  destruct (str_compare (rec_username r1) (rec_username r2)); simpl;
    try discriminate; [|reflexivity].
  intros H. apply Z.leb_gt in H. apply Z.leb_le. lia.
Qed.

Lemma str_compare_eq (a b : str) : str_compare a b = Eq -> a = b.
Proof.
  revert b. induction a as [|x a IH]; intros [|y b]; simpl;
    try discriminate; [reflexivity|].
  destruct (x ?= y) eqn:E; try discriminate.
  apply Z.compare_eq in E. intros H. f_equal; auto.
Qed.

Lemma str_compare_trans (c : comparison) (a b d : str) :
  str_compare a b = c -> str_compare b d = c -> str_compare a d = c.
Proof.
  revert b d. induction a as [|x a IH]; intros [|y b] [|z d]; simpl;
    try congruence.
  destruct (x ?= y) eqn:E1; destruct (y ?= z) eqn:E2; intros H1 H2;
    try congruence.
  - apply Z.compare_eq in E1, E2. subst y z. rewrite Z.compare_refl.
    eapply IH; eassumption.
  - apply Z.compare_eq in E1. subst y. rewrite E2. exact H2.
  - apply Z.compare_eq in E1. subst y. rewrite E2. exact H2.
  - apply Z.compare_eq in E2. subst z. rewrite E1. exact H1.
  - rewrite Z.compare_lt_iff in E1, E2.
    assert (E : (x ?= z) = Lt) by (apply Z.compare_lt_iff; lia).
    rewrite E. exact H1.
  - apply Z.compare_eq in E2. subst z. rewrite E1. exact H1.
  - rewrite Z.compare_gt_iff in E1, E2.
    assert (E : (x ?= z) = Gt) by (apply Z.compare_gt_iff; lia).
    rewrite E. exact H1.
Qed.

Lemma record_leb_trans (r1 r2 r3 : log_record) :
  record_leb r1 r2 = true -> record_leb r2 r3 = true ->
  record_leb r1 r3 = true.
Proof.
  unfold record_leb.
  destruct (str_compare (rec_username r1) (rec_username r2)) eqn:E12;
    try discriminate;
    destruct (str_compare (rec_username r2) (rec_username r3)) eqn:E23;
    try discriminate; intros H1 H2.
  - rewrite (str_compare_trans Eq _ _ _ E12 E23).
    apply Z.leb_le in H1, H2. apply Z.leb_le. lia.
  - apply str_compare_eq in E12. rewrite E12, E23. reflexivity.
  - apply str_compare_eq in E23. rewrite <- E23, E12. reflexivity.
  - rewrite (str_compare_trans Lt _ _ _ E12 E23). reflexivity.
Qed.

Lemma insert_record_sorted (r : log_record) (l : list log_record) :
  StronglySorted record_le l -> StronglySorted record_le (insert_record r l).
Proof.
  induction 1 as [|x t Hs IH Hx]; simpl.
  - constructor; constructor.
  - destruct (record_leb r x) eqn:E.
    + constructor; [now constructor|]. constructor; [exact E|].
      rewrite Forall_forall in *. intros y Hy.
      eapply record_leb_trans; [exact E | now apply Hx].
    + constructor; [exact IH|].
      rewrite Forall_forall in *. intros y Hy.
      apply (Permutation_in _ (insert_record_perm r t)) in Hy.
      destruct Hy as [<-|Hy]; [now apply record_leb_total | now apply Hx].
Qed.

Lemma sort_values_sorted (l : list log_record) :
  StronglySorted record_le (sort_values l).
Proof.
  induction l as [|x t IH]; simpl; [constructor|].
  now apply insert_record_sorted.
Qed.

End StoreProperties.

Section StoreTheorems.
Local Open Scope Z_scope.

Lemma same_key_self (r : log_record) :
  same_key (rec_username r) (rec_date r) r = true.
Proof. apply same_key_spec. reflexivity. Qed.

Lemma filter_none {A : Type} (f : A -> bool) (l : list A) :
  (forall x, In x l -> f x = false) -> filter f l = [].
Proof.
  induction l as [|x t IH]; intros H; simpl; [reflexivity|].
  rewrite (H x (or_introl eq_refl)). apply IH. intros y Hy. apply H. now right.
Qed.

Lemma NoDup_map_filter {A B : Type} (g : A -> B) (f : A -> bool) (l : list A) :
  NoDup (map g l) -> NoDup (map g (filter f l)).
Proof.
  induction l as [|x t IH]; simpl; intros H; [constructor|].
  inversion H as [|? ? Hn Ht]; subst.
  destruct (f x); simpl; [constructor|]; auto.
  intros Hin. apply Hn. apply in_map_iff in Hin. destruct Hin as [y [E Hy]].
  apply filter_In in Hy. apply in_map_iff. exists y. tauto.
Qed.

(** Saving a record replaces the row of the same user and day, if there is
    one: afterwards the sheet has exactly one row for that key, the new one;
    the rows of every other key are the same as before; the sheet is sorted
    by user and day; and if no key was repeated before, none is after. *)
Theorem save_record_replaces :
  forall (all_data_df : list log_record) (new_record : log_record),
    let same := same_key (rec_username new_record) (rec_date new_record) in
    let saved := save_record all_data_df new_record in
    filter same saved = [new_record]
    /\ Permutation (filter (fun r => negb (same r)) saved)
                   (filter (fun r => negb (same r)) all_data_df)
    /\ StronglySorted record_le saved
    /\ (NoDup (map record_key all_data_df) -> NoDup (map record_key saved)).
Proof.
  intros all_data_df new_record same saved.
  set (kept := filter (fun r => negb (same r)) all_data_df).
  assert (P : Permutation saved (kept ++ [new_record]))
    by apply sort_values_perm.
  assert (Fk : filter same kept = []).
  { apply filter_none. intros x Hx. apply filter_In in Hx.
    destruct Hx as [_ Hx]. now apply negb_true_iff in Hx. }
  assert (Fn : filter (fun r => negb (same r)) kept = kept).
  { unfold kept. clear. induction all_data_df as [|x t IH]; simpl;
      [reflexivity|].
    destruct (negb (same x)) eqn:E; simpl; [rewrite E, IH|]; auto. }
  split; [|split; [|split]].
  - apply Permutation_length_1_inv. symmetry.
    rewrite (filter_perm same _ _ P), filter_app, Fk. simpl.
    unfold same at 1. rewrite same_key_self. reflexivity.
  - rewrite (filter_perm _ _ _ P), filter_app, Fn. simpl.
    unfold same at 1. rewrite same_key_self. simpl.
    rewrite app_nil_r. reflexivity.
  - apply sort_values_sorted.
  - intros Hn.
    apply (Permutation_NoDup (Permutation_sym (Permutation_map record_key P))).
    rewrite map_app. simpl.
    apply (Permutation_NoDup (Permutation_cons_append _ _)).
    constructor; [|now apply NoDup_map_filter].
    intros Hin. apply in_map_iff in Hin. destruct Hin as [y [E Hy]].
    apply filter_In in Hy. destruct Hy as [_ Hy].
    apply negb_true_iff in Hy.
    assert (same y = true) by (apply same_key_spec; exact E). congruence.
Qed.

Lemma key_eqb_eq (k1 k2 : str * Z) : key_eqb k1 k2 = true <-> k1 = k2.
Proof.
  unfold key_eqb. rewrite andb_true_iff, str_eqb_eq, Z.eqb_eq.
  destruct k1, k2; simpl. split; [intros [-> ->]; reflexivity|].
  intros E; inversion E; auto.
Qed.

Lemma drop_duplicates_last_In (l : list research_record) (r : research_record) :
  In r (drop_duplicates_last l) -> In r l.
Proof.
  induction l as [|x t IH]; simpl; [auto|].
  destruct (existsb _ t); [intros H; right; auto|].
  intros [<-|H]; [now left | right; auto].
Qed.

Lemma drop_duplicates_last_keys (l : list research_record) (k : str * Z) :
  In k (map research_key l) ->
  In k (map research_key (drop_duplicates_last l)).
Proof.
  induction l as [|x t IH]; simpl; [auto|].
  destruct (existsb _ t) eqn:E.
  - intros [<-|H]; [|auto]. apply IH.
    apply existsb_exists in E. destruct E as [y [Hy Hk]].
    apply key_eqb_eq in Hk. apply in_map_iff. exists y. auto.
  - intros [<-|H]; [now left | right; auto].
Qed.

Lemma drop_duplicates_last_NoDup (l : list research_record) :
  NoDup (map research_key (drop_duplicates_last l)).
Proof.
  induction l as [|x t IH]; simpl; [constructor|].
  destruct (existsb _ t) eqn:E; [exact IH|].
  simpl. constructor; [|exact IH].
  intros Hin. apply in_map_iff in Hin. destruct Hin as [y [Ek Hy]].
  apply drop_duplicates_last_In in Hy.
  assert (existsb (fun z => key_eqb (research_key z) (research_key x)) t
          = true).
  { apply existsb_exists. exists y. split; [exact Hy|].
    apply key_eqb_eq. exact Ek. }
  congruence.
Qed.

(** The last row of a key survives. *)
Lemma drop_duplicates_last_keeps (l1 l2 : list research_record)
  (r : research_record) :
  (forall y, In y l2 -> research_key y <> research_key r) ->
  In r (drop_duplicates_last (l1 ++ r :: l2)).
Proof.
  intros H. induction l1 as [|x t IH]; simpl.
  - destruct (existsb _ l2) eqn:E; [|now left].
    apply existsb_exists in E. destruct E as [y [Hy Hk]].
    apply key_eqb_eq in Hk. exfalso. now apply (H y).
  - destruct (existsb _ (t ++ r :: l2)); [exact IH | right; exact IH].
Qed.

(** After a contribution the research sheet has one row for each user and
    day; every row in it comes from the old sheet or from the contribution;
    no key is lost; and the contributed rows are all in it (they win over
    older rows of the same key), provided the contribution itself repeats no
    key. *)
Theorem contribute_keeps_latest :
  forall (existing_research_df : option (list research_record))
         (research_ready_df : list research_record),
    let existing := match existing_research_df with
                    | Some l => l
                    | None => []
                    end in
    let updated := contribute existing_research_df research_ready_df in
    NoDup (map research_key updated)
    /\ (forall r, In r updated -> In r existing \/ In r research_ready_df)
    /\ (forall k, In k (map research_key (existing ++ research_ready_df)) ->
                  In k (map research_key updated))
    /\ (NoDup (map research_key research_ready_df) ->
        forall r, In r research_ready_df -> In r updated).
Proof.
  intros existing_research_df ready existing updated.
  assert (E : updated = drop_duplicates_last (existing ++ ready)).
  { unfold updated, contribute, existing.
    destruct existing_research_df; reflexivity. }
  rewrite E. clear E updated.
  split; [apply drop_duplicates_last_NoDup|]. split; [|split].
  - intros r Hr. apply drop_duplicates_last_In in Hr. now apply in_app_or.
  - apply drop_duplicates_last_keys.
  - intros Hn r Hr. destruct (in_split r ready Hr) as [l1 [l2 E]].
    rewrite E, app_assoc. apply drop_duplicates_last_keeps.
    intros y Hy Hk. rewrite E, map_app in Hn. simpl in Hn.
    apply NoDup_remove_2 in Hn. apply Hn. apply in_or_app. right.
    rewrite <- Hk. now apply in_map.
Qed.


End StoreTheorems.

Lemma save_record_replaces_witness :
  NoDup (map record_key
           (save_record [sample_log [97%Z] 1%Z; sample_log [98%Z] 1%Z]
                        (sample_log [97%Z] 1%Z))).
Proof.
  refine (proj2 (proj2 (proj2
            (save_record_replaces
               [sample_log [97%Z] 1%Z; sample_log [98%Z] 1%Z]
               (sample_log [97%Z] 1%Z)))) _).
  simpl. constructor.
  - intros [H|[]]. discriminate H.
  - constructor; [intros [] | constructor].
Defined.

Lemma contribute_keeps_latest_witness :
  In (sample_research [97%Z] 1%Z (1 / 2))
     (contribute (Some [sample_research [97%Z] 1%Z 0])
                 [sample_research [97%Z] 1%Z (1 / 2)]).
Proof.
  refine (proj2 (proj2 (proj2
            (contribute_keeps_latest (Some [sample_research [97%Z] 1%Z 0])
                                     [sample_research [97%Z] 1%Z (1 / 2)])))
            _ _ _).
  - simpl. constructor; [intros [] | constructor].
  - now left.
Defined.

(** ** Accounts *)

Section AccountProperties.
Local Open Scope Z_scope.

Lemma existsb_users_named (users_df : list user_record) (username : str) :
  existsb (fun u => str_eqb (usr_username u) username) users_df = false ->
  users_named users_df username = []
  /\ ~ In username (map usr_username users_df).
Proof.
  intros H. split.
  - apply filter_none. intros x Hx.
    destruct (str_eqb (usr_username x) username) eqn:E; [|reflexivity].
    assert (existsb (fun u => str_eqb (usr_username u) username) users_df
            = true) by (apply existsb_exists; exists x; auto).
    congruence.
  - intros Hin. apply in_map_iff in Hin. destruct Hin as [x [E Hx]].
    assert (existsb (fun u => str_eqb (usr_username u) username) users_df
            = true).
    { apply existsb_exists. exists x. split; [exact Hx|].
      now apply str_eqb_eq. }
    congruence.
Qed.

Lemma str_eqb_refl (a : str) : str_eqb a a = true.
Proof. now apply str_eqb_eq. Qed.

(** What a completed registration did. *)
Lemma register_submit_done sha256 hashpw salt users_df
  (new_username new_password confirm : str) updated state :
  register_submit sha256 hashpw salt users_df new_username new_password
                  confirm = Some (reg_done updated state) ->
  existsb (fun u => str_eqb (usr_username u) new_username) users_df = false
  /\ (8 <= length new_password)%nat
  /\ new_password = confirm
  /\ exists hashed_pw manager,
       hash_password hashpw salt new_password = Some hashed_pw
       /\ EncryptionManager_init sha256 new_password = Some manager
       /\ updated = users_df ++ [{| usr_username := new_username;
                                    usr_password_hash := hashed_pw |}]
       /\ state = {| ses_username := Some new_username;
                     ses_enc_manager := Some manager |}.
Proof.
  unfold register_submit.
  destruct (existsb _ users_df); [discriminate|].
  destruct (Nat.ltb_spec (length new_password) 8); [discriminate|].
  destruct (str_eqb new_password confirm) eqn:E; [|discriminate]. simpl.
  destruct (hash_password hashpw salt new_password) as [h|]; [|discriminate].
  destruct (EncryptionManager_init sha256 new_password) as [em|];
    [|discriminate].
  intros Hreg. inversion Hreg; subst.
  split; [reflexivity|]. split; [assumption|].
  split; [now apply str_eqb_eq|]. exists h, em. repeat split.
Qed.


(** A new user can log in: after a completed registration, the login form
    accepts the same name and password on the updated users sheet. *)
Theorem login_after_register :
  forall (sha256 : bytes -> bytes) (hashpw : bytes -> bytes -> bytes)
         (checkpw : bytes -> bytes -> option bool) (salt : bytes)
         (users_df updated : list user_record) (state : session)
         (new_username new_password confirm : str),
    bcrypt_ok hashpw checkpw ->
    register_submit sha256 hashpw salt users_df new_username new_password
                    confirm = Some (reg_done updated state) ->
    login_submit checkpw updated new_username new_password = Some login_ok.
Proof.
  intros sha256 hashpw checkpw salt users_df updated state new_username
         new_password confirm Hb H.
  destruct (register_submit_done _ _ _ _ _ _ _ _ _ H)
    as [He [_ [_ [h [em [Hh [_ [-> _]]]]]]]].
  unfold login_submit.
  destruct (users_df ++ [{| usr_username := new_username;
                            usr_password_hash := h |}]) eqn:Eu.
  { destruct users_df; discriminate. }
  rewrite <- Eu. unfold users_named. rewrite filter_app.
  fold (users_named users_df new_username).
  rewrite (proj1 (existsb_users_named _ _ He)).
  cbn [filter app usr_username]. rewrite str_eqb_refl.
  cbn [usr_password_hash]. unfold check_password.
  unfold hash_password in Hh.
  destruct (utf8_encode new_password) as [pb|]; [|discriminate].
  destruct (Hb pb salt) as [Ha Hc].
  destruct (utf8_ascii _ Ha) as [Een Ede].
  rewrite Ede in Hh. inversion Hh; subst h.
  rewrite Een, Hc. reflexivity.
Qed.


End AccountProperties.

Lemma sample_bcrypt_ok : bcrypt_ok sample_hashpw sample_checkpw.
Proof.
  intros pb salt. split.
  - unfold sample_hashpw. apply Forall_forall. intros x Hx.
    apply in_map_iff in Hx. destruct Hx as [b [<- _]].
    unfold is_ascii. pose proof (Z.mod_pos_bound b 10 ltac:(lia)). lia.
  - unfold sample_checkpw, sample_hashpw. rewrite str_eqb_refl. reflexivity.
Qed.


Lemma sample_registration :
  register_submit (fun _ => sample_digest) sample_hashpw [] []
                  sample_username sample_password sample_password
  = Some (reg_done sample_users
            {| ses_username := Some sample_username;
               ses_enc_manager := Some sample_manager |}).
Proof. reflexivity. Qed.


Lemma login_after_register_witness :
  login_submit sample_checkpw sample_users sample_username sample_password
  = Some login_ok.
Proof.
  exact (login_after_register (fun _ => sample_digest) sample_hashpw
           sample_checkpw [] [] sample_users _ sample_username
           sample_password sample_password sample_bcrypt_ok
           sample_registration).
Defined.



(** ** The daily form *)





(** The form refuses weights that do not add up to 100. *)
Lemma submit_form_rejects (q_values : domain -> Z)
  (s_element_values : domain -> list (option Z)) (g : Z) :
  sumZ (map q_values DOMAINS) <> 100%Z ->
  submit_form q_values s_element_values g = None.
Proof.
  intros H. unfold submit_form.
  destruct (Z.eqb_spec (sumZ (map q_values DOMAINS)) 100);
    [contradiction|reflexivity].
Qed.

(** ** Masking: a different key *)

Section OtherKey.
Local Open Scope Z_scope.

Ltac zdm2 := Z.div_mod_to_equations; lia.

Ltac split_tests H :=
  repeat match type of H with
    | context [?a <? ?b] => destruct (Z.ltb_spec a b); cbn [andb negb] in H
    | context [?a <=? ?b] => destruct (Z.leb_spec a b); cbn [andb negb] in H
    end.

Lemma option_map_cons_inv (c : Z) (o : option str) (t : str) :
  option_map (cons c) o = Some t -> exists t', o = Some t' /\ t = c :: t'.
Proof.
  destruct o as [t'|]; simpl; [|discriminate].
  intros E. inversion E. exists t'. auto.
Qed.

(** The decoder accepts only what the encoder produces: a byte string that
    decodes to a text is the encoding of that text. *)
Lemma utf8_encode_decode (n : nat) :
  forall (bs : bytes) (t : str),
    (length bs <= n)%nat ->
    utf8_decode bs = Some t -> utf8_encode t = Some bs.
Proof.
  induction n as [|n IH]; intros bs t Hlen H.
  { destruct bs; [|simpl in Hlen; lia]. simpl in H. inversion H. reflexivity. }
  destruct bs as [|b0 t0]; [simpl in H; inversion H; reflexivity|].
  cbn [utf8_decode] in H. simpl in Hlen.
  destruct ((0 <=? b0) && (b0 <? 128)) eqn:T1.
  { apply option_map_cons_inv in H. destruct H as [t' [E ->]].
    apply IH in E; [|lia]. cbn [utf8_encode]. rewrite E.
    apply andb_true_iff in T1. destruct T1 as [A B].
    apply Z.leb_le in A. apply Z.ltb_lt in B. unfold utf8_encode_cp.
    destruct (Z.ltb_spec b0 0); [lia|].
    destruct (Z.ltb_spec b0 128); [reflexivity|lia]. }
  destruct ((194 <=? b0) && (b0 <? 224)) eqn:T2.
  { destruct t0 as [|b1 t1]; [discriminate|].
    unfold is_cont in H.
    destruct ((128 <=? b1) && (b1 <? 192)) eqn:C1; [|discriminate].
    apply option_map_cons_inv in H. destruct H as [t' [E ->]].
    apply IH in E; [|simpl in Hlen; lia]. cbn [utf8_encode]. rewrite E.
    apply andb_true_iff in T2, C1. destruct T2 as [A B], C1 as [C D].
    apply Z.leb_le in A, C. apply Z.ltb_lt in B, D.
    unfold utf8_encode_cp.
    set (c := (b0 - 192) * 64 + (b1 - 128)).
    assert (Hc : 128 <= c < 2048) by (unfold c; lia).
    destruct (Z.ltb_spec c 0); [lia|].
    destruct (Z.ltb_spec c 128); [lia|].
    destruct (Z.ltb_spec c 2048); [|lia].
    replace (192 + c / 64) with b0 by (unfold c; zdm2).
    replace (128 + c mod 64) with b1 by (unfold c; zdm2).
    reflexivity. }
  destruct ((224 <=? b0) && (b0 <? 240)) eqn:T3.
  { destruct t0 as [|b1 [|b2 t2]]; try discriminate.
    unfold is_cont in H.
    set (c := (b0 - 224) * 4096 + (b1 - 128) * 64 + (b2 - 128)) in *.
    destruct ((128 <=? b1) && (b1 <? 192)) eqn:C1; [|discriminate].
    destruct ((128 <=? b2) && (b2 <? 192)) eqn:C2; [|discriminate].
    destruct (2048 <=? c) eqn:C3; [|discriminate].
    destruct ((55296 <=? c) && (c <? 57344)) eqn:C4; [discriminate|].
    cbn [andb negb] in H.
    apply option_map_cons_inv in H. destruct H as [t' [E ->]].
    apply IH in E; [|simpl in Hlen; lia]. cbn [utf8_encode]. rewrite E.
    apply andb_true_iff in T3, C1, C2.
    destruct T3 as [A B], C1 as [C D], C2 as [C' D'].
    apply Z.leb_le in A, C, C', C3. apply Z.ltb_lt in B, D, D'.
    unfold utf8_encode_cp. rewrite C4.
    assert (Hc : 2048 <= c < 65536) by (unfold c in *; lia).
    destruct (Z.ltb_spec c 0); [lia|].
    destruct (Z.ltb_spec c 128); [lia|].
    destruct (Z.ltb_spec c 2048); [lia|].
    destruct (Z.ltb_spec c 65536); [|lia].
    replace (224 + c / 4096) with b0 by (unfold c; zdm2).
    replace (128 + (c / 64) mod 64) with b1 by (unfold c; zdm2).
    replace (128 + c mod 64) with b2 by (unfold c; zdm2).
    reflexivity. }
  destruct ((240 <=? b0) && (b0 <? 245)) eqn:T4; [|discriminate].
  destruct t0 as [|b1 [|b2 [|b3 t3]]]; try discriminate.
  unfold is_cont in H.
  set (c := (b0 - 240) * 262144 + (b1 - 128) * 4096 + (b2 - 128) * 64
            + (b3 - 128)) in *.
  destruct ((128 <=? b1) && (b1 <? 192)) eqn:C1; [|discriminate].
  destruct ((128 <=? b2) && (b2 <? 192)) eqn:C2; [|discriminate].
  destruct ((128 <=? b3) && (b3 <? 192)) eqn:C3; [|discriminate].
  destruct (65536 <=? c) eqn:C4; [|discriminate].
  destruct (c <? 1114112) eqn:C5; [|discriminate].
  cbn [andb] in H.
  apply option_map_cons_inv in H. destruct H as [t' [E ->]].
  apply IH in E; [|simpl in Hlen; lia]. cbn [utf8_encode]. rewrite E.
  apply andb_true_iff in T4, C1, C2, C3.
  destruct T4 as [A B], C1 as [C D], C2 as [C' D'], C3 as [C'' D''].
  apply Z.leb_le in A, C, C', C'', C4. apply Z.ltb_lt in B, D, D', D'', C5.
  unfold utf8_encode_cp.
  destruct (Z.ltb_spec c 0); [lia|].
  destruct (Z.ltb_spec c 128); [lia|].
  destruct (Z.ltb_spec c 2048); [lia|].
  destruct (Z.ltb_spec c 65536); [lia|].
  destruct (Z.ltb_spec c 1114112); [|lia].
  replace (240 + c / 262144) with b0 by (unfold c; zdm2).
  replace (128 + (c / 4096) mod 64) with b1 by (unfold c; zdm2).
  replace (128 + (c / 64) mod 64) with b2 by (unfold c; zdm2).
  replace (128 + c mod 64) with b3 by (unfold c; zdm2).
  reflexivity.
Qed.

(** A text masked with one key is never shown by a manager whose key differs
    at a position that was used: that manager's [decrypt_log] returns its
    failure text or some other text. *)
Theorem decrypt_log_other_key :
  forall (self other : EncryptionManager) (t : str) (plain masked : bytes)
         (i : nat),
    Forall is_byte (key self) ->
    utf8_encode t = Some plain ->
    (i < length plain)%nat ->
    nth (i mod length (key self)) (key self) 0
      <> nth (i mod length (key other)) (key other) 0 ->
    encrypt_log self t = Some masked ->
    decrypt_log other masked = decrypt_failure
    \/ decrypt_log other masked <> t.
Proof.
  intros self other t plain masked i Hk E Hi Hdiff Henc.
  rewrite (encrypt_log_value self t plain Hk E) in Henc.
  inversion Henc; subst masked. clear Henc.
  assert (Hp : Forall is_byte plain) by now apply utf8_encode_bytes with t.
  assert (Hx : Forall is_byte (xor_stream (key self) plain))
    by (apply xor_from_bytes; assumption).
  unfold decrypt_log.
  destruct (b64encode (xor_stream (key self) plain)) eqn:Eb.
  { exfalso. apply (b64encode_nonempty (xor_stream (key self) plain));
      [|exact Eb].
    apply xor_stream_nonempty. destruct plain; [simpl in Hi; lia|discriminate]. }
  rewrite <- Eb.
  rewrite (proj1 (utf8_ascii _ (b64encode_ascii _ Hx))).
  rewrite (b64decode_b64encode _ Hx).
  set (out := xor_stream (key other) (xor_stream (key self) plain)).
  destruct (utf8_decode out) as [t'|] eqn:D; [|left; reflexivity].
  right. intros ->.
  apply (utf8_encode_decode (length out)) in D; [|lia].
  assert (Eout : out = plain) by congruence.
  assert (Hn : nth i out 0 = nth i plain 0) by now rewrite Eout.
  unfold out, xor_stream in Hn.
  assert (L : forall k j d, length (xor_from k j d) = length d).
  { intros k0 j0 d0. revert j0. induction d0 as [|x0 d0 IH0]; intros j0;
      cbn [xor_from length]; [reflexivity|]. now rewrite IH0. }
  rewrite nth_xor_from in Hn by (rewrite L; exact Hi).
  rewrite nth_xor_from in Hn by exact Hi.
  simpl in Hn. apply Hdiff.
  assert (Hz : Z.lxor (nth (i mod length (key self)) (key self) 0)
                      (nth (i mod length (key other)) (key other) 0) = 0).
  { apply (f_equal (Z.lxor (nth i plain 0))) in Hn.
    rewrite <- !Z.lxor_assoc, Z.lxor_nilpotent, Z.lxor_0_l in Hn.
    exact Hn. }
  now apply Z.lxor_eq.
Qed.

End OtherKey.

Lemma decrypt_log_other_key_witness :
  decrypt_log other_manager sample_masked = decrypt_failure
  \/ decrypt_log other_manager sample_masked <> sample_text.
Proof.
  apply (decrypt_log_other_key sample_manager other_manager sample_text
           sample_plain sample_masked 0).
  - unfold sample_manager, sample_digest, is_byte. cbn [key].
    repeat (apply Forall_cons; [lia|]). apply Forall_nil.
  - reflexivity.
  - simpl. lia.
  - simpl. discriminate.
  - vm_compute. reflexivity.
Defined.

(** ** The comparison wizard *)

Ltac asked_at n :=
  exists n; first [left; reflexivity | right; reflexivity].

(** Every pair of distinct domains is asked, in one order or the other. *)
Lemma wizard_asks_every_pair (a b : domain) :
  a <> b ->
  exists k, nth_error wizard_pairs k = Some (a, b)
            \/ nth_error wizard_pairs k = Some (b, a).
Proof.
  intros Hab.
  destruct a, b; try contradiction;
    first [ asked_at 0%nat | asked_at 1%nat | asked_at 2%nat | asked_at 3%nat
          | asked_at 4%nat | asked_at 5%nat | asked_at 6%nat | asked_at 7%nat
          | asked_at 8%nat | asked_at 9%nat | asked_at 10%nat
          | asked_at 11%nat | asked_at 12%nat | asked_at 13%nat
          | asked_at 14%nat | asked_at 15%nat | asked_at 16%nat
          | asked_at 17%nat | asked_at 18%nat | asked_at 19%nat
          | asked_at 20%nat ].
Qed.

Ltac none_later :=
  let c := fresh "c" in
  let Hc := fresh "Hc" in
  intros c Hc; simpl in Hc;
  repeat (destruct Hc as [<-|Hc]; [split; discriminate|]);
  contradiction.

Ltac question K Hp Ha Hm :=
  injection Hp as <-; injection Ha as <-;
  match type of Hm with
  | build_matrix ?c DOMAINS = Some ?m =>
      match goal with
      | |- context [if ?w then fst (?x, ?y) else _] =>
          let J1 := fresh "J" in
          let J2 := fresh "J" in
          pose proof (judged_pair_entries (firstn K c) (skipn (S K) c)
                        x y (if w then x else y) m
                        ltac:(discriminate) ltac:(none_later) Hm)
            as [J1 J2];
          destruct w; cbv zeta; cbn [fst snd];
          [ apply J1; reflexivity
          | destruct (J2 eq_refl); split; assumption ]
      end
  end.

(** After the 21 answers the wizard is past its last question, and the
    matrix built from its judgments is complete: for the pair of each
    question the entry of the chosen domain over the other is 3 and the
    opposite entry 1/3, every pair of distinct domains was asked, and the
    diagonal is 1. *)
Theorem wizard_matrix_complete :
  forall (answers : list bool) (m : matrix),
    length answers = 21%nat ->
    build_matrix (q_comparisons (wizard_run answers)) DOMAINS = Some m ->
    q_wizard_step (wizard_run answers) = 22%nat
    /\ (forall k p first,
          nth_error wizard_pairs k = Some p ->
          nth_error answers k = Some first ->
          let winner := if first then fst p else snd p in
          let loser := if first then snd p else fst p in
          entry DOMAINS m winner loser = Some 3
          /\ entry DOMAINS m loser winner = Some (1 / 3))
    /\ (forall a b, a <> b ->
          exists k, nth_error wizard_pairs k = Some (a, b)
                    \/ nth_error wizard_pairs k = Some (b, a))
    /\ (forall a, entry DOMAINS m a a = Some 1).
Proof.
  intros answers m Hlen Hm.
  do 21 (destruct answers as [|? answers]; [discriminate Hlen|]).
  destruct answers; [|discriminate Hlen]. clear Hlen.
  set (c := q_comparisons (wizard_run _)) in Hm.
  vm_compute in c. subst c.
  split; [vm_compute; reflexivity|]. split; [|split].
  - intros k p first Hp Ha.
    destruct k as
      [|[|[|[|[|[|[|[|[|[|[|[|[|[|[|[|[|[|[|[|[|k]]]]]]]]]]]]]]]]]]]]];
      simpl in Hp, Ha.
    22: { destruct k; discriminate Hp. }
    + question 0%nat Hp Ha Hm.
    + question 1%nat Hp Ha Hm.
    + question 2%nat Hp Ha Hm.
    + question 3%nat Hp Ha Hm.
    + question 4%nat Hp Ha Hm.
    + question 5%nat Hp Ha Hm.
    + question 6%nat Hp Ha Hm.
    + question 7%nat Hp Ha Hm.
    + question 8%nat Hp Ha Hm.
    + question 9%nat Hp Ha Hm.
    + question 10%nat Hp Ha Hm.
    + question 11%nat Hp Ha Hm.
    + question 12%nat Hp Ha Hm.
    + question 13%nat Hp Ha Hm.
    + question 14%nat Hp Ha Hm.
    + question 15%nat Hp Ha Hm.
    + question 16%nat Hp Ha Hm.
    + question 17%nat Hp Ha Hm.
    + question 18%nat Hp Ha Hm.
    + question 19%nat Hp Ha Hm.
    + question 20%nat Hp Ha Hm.
  - exact wizard_asks_every_pair.
  - intros a. apply (build_matrix_unjudged _ m a a Hm).
    intros c Hc. simpl in Hc.
    repeat (destruct Hc as [<-|Hc]; [destruct a; split; discriminate|]).
    contradiction.
Qed.

Lemma wizard_matrix_complete_witness :
  exists m,
    build_matrix (q_comparisons (wizard_run (repeat true 21))) DOMAINS
    = Some m
    /\ entry DOMAINS m health relationships = Some 3.
Proof.
  destruct (build_matrix_DOMAINS
              (q_comparisons (wizard_run (repeat true 21)))) as [m [E _]].
  exists m. split; [exact E|].
  exact (proj1 (proj1 (proj2 (wizard_matrix_complete (repeat true 21) m
                                eq_refl E))
                  0%nat (health, relationships) true eq_refl eq_refl)).
Defined.

(** ** Unity is symmetric *)

Lemma midpoint_comm (p q : list R) :
  map (fun pq => (fst pq + snd pq) / 2) (combine p q)
  = map (fun pq => (fst pq + snd pq) / 2) (combine q p).
Proof.
  revert q. induction p as [|x p IH]; intros [|y q]; simpl; try reflexivity.
  rewrite IH. f_equal. lra.
Qed.

Lemma jensenshannon_comm (p q : list R) :
  jensenshannon p q = jensenshannon q p.
Proof.
  unfold jensenshannon.
  destruct (normalize p (np_sum p)) as [p'|];
    destruct (normalize q (np_sum q)) as [q'|]; try reflexivity.
  rewrite (midpoint_comm q' p').
  destruct (sum_ext _) as [l|]; destruct (sum_ext _) as [r|];
    try reflexivity.
  f_equal. f_equal. lra.
Qed.

(** Exchanging the roles of the weights and of the scores does not change
    Unity. *)
Theorem unity_symmetric :
  forall (r r' : row),
    (forall d, q_filled r' d = s_filled r d) ->
    (forall d, s_filled r' d = q_filled r d) ->
    calculate_unity r' = calculate_unity r.
Proof.
  intros r r' Hq Hs.
  assert (Eq : q_vector r' = s_vector r)
    by (unfold q_vector, s_vector; apply map_ext; exact Hq).
  assert (Es : s_vector r' = q_vector r)
    by (unfold q_vector, s_vector; apply map_ext; exact Hs).
  unfold calculate_unity. rewrite Eq, Es.
  destruct (Req_dec_T (np_sum (s_vector r)) 0);
    destruct (Req_dec_T (np_sum (q_vector r)) 0); try reflexivity.
  rewrite jensenshannon_comm. reflexivity.
Qed.

Lemma unity_symmetric_witness :
  calculate_unity swapped_row = calculate_unity example_row.
Proof.
  apply unity_symmetric.
  - intros d; destruct d; reflexivity.
  - intros d; destruct d; reflexivity.
Defined.

(** ** From the wizard to the form *)

Lemma wizard_values_sum (w : list Z) :
  length w = 7%nat -> sumZ (map (wizard_values w) DOMAINS) = sumZ w.
Proof.
  intros H.
  destruct w as [|a [|b [|c [|d [|e [|f [|g [|? ?]]]]]]]]; try discriminate H.
  reflexivity.
Qed.

(** The suggestion of the wizard can be saved as it is: the weights returned
    by [calculate_ahp_weights], put on the sliders, pass the sum check of
    the daily form. *)
Theorem wizard_suggestion_accepted :
  forall (eig : matrix -> list R) (comparisons : list judgment)
         (s_element_values : domain -> list (option Z)) (g : Z),
    (forall m, build_matrix comparisons DOMAINS = Some m ->
               length (eig m) = length m /\ np_sum (eig m) <> 0) ->
    exists estimated_weights,
      calculate_ahp_weights eig comparisons DOMAINS = Some estimated_weights
      /\ submit_form (wizard_values estimated_weights) s_element_values g
         = Some (form_row (wizard_values estimated_weights)
                          s_element_values g).
Proof.
  intros eig comparisons elems g Heig. unfold calculate_ahp_weights.
  destruct (build_matrix_DOMAINS comparisons) as [m [E L]]. rewrite E.
  destruct (Heig m E) as [Hlen Hsum].
  destruct (ahp_int_weights_sum (eig m) Hsum) as [w [Hw [Lw Sw]]].
  exists w. split; [exact Hw|]. unfold submit_form.
  rewrite wizard_values_sum by congruence. rewrite Sw. reflexivity.
Qed.

Lemma wizard_suggestion_accepted_witness :
  exists estimated_weights,
    calculate_ahp_weights ones_eigenvector [] DOMAINS = Some estimated_weights
    /\ submit_form (wizard_values estimated_weights) sample_element_values 55
       = Some (form_row (wizard_values estimated_weights)
                        sample_element_values 55).
Proof.
  apply (wizard_suggestion_accepted ones_eigenvector []).
  intros m E. rewrite build_matrix_empty in E. inversion E; subst m.
  split; [reflexivity|]. unfold ones_eigenvector. simpl. lra.
Defined.
